(** * monkey-lang: the runtime object model and the interactive shell

    A shallow embedding of [object/object.go] (runtime values, the chained
    [Environment], the collision-safe [Hash]) and of the read loop in package
    [repl], followed by the properties the specification states about them.

    Go heap objects live in an explicit store: an [Object] interface value is
    a dynamic type together with a pointer, and every function that reads or
    writes through a pointer takes the store and, when it writes, returns the
    new one.  A run-time panic (nil dereference, failed type assertion,
    assignment to a nil map) is the outer [None] of a result. *)

From stdpp Require Import gmap strings list fin_maps.
From ITree Require Import ITree ITreeFacts Events.State Events.StateFacts.
From Stdlib Require Import ZArith Lia.

Local Open Scope Z_scope.

(* ===================================================================== *)
(** ** Package [object] *)
(* ===================================================================== *)

Module object.

(** [type ObjectType string] and its constants. *)
Definition ObjectType : Type := string.

Definition INTEGER_OBJ : ObjectType := "INTEGER".
Definition BOOLEAN_OBJ : ObjectType := "BOOLEAN".
Definition NULL_OBJ : ObjectType := "NULL".
Definition RETURN_VALUE_OBJ : ObjectType := "RETURN_VALUE".
Definition ERROR_OBJ : ObjectType := "ERROR".
Definition FUNCTION_OBJ : ObjectType := "FUNCTION".
Definition STRING_OBJ : ObjectType := "STRING".
Definition BUILTIN_OBJ : ObjectType := "BUILTIN".
Definition ARRAY_OBJ : ObjectType := "ARRAY".
Definition HASH_OBJ : ObjectType := "HASH".

(** Pointers. *)
Definition loc : Type := positive.

(** [type HashKey struct { Type ObjectType; Value uint64 }].  A [uint64] is a
    [Z] in [0, 2^64). *)
Record HashKey : Type := mkHashKey {
  HashKey_Type : ObjectType;
  HashKey_Value : Z
}.

#[global] Instance HashKey_eq_dec : EqDecision HashKey.
Proof. solve_decision. Defined.

#[global] Instance HashKey_countable : Countable HashKey.
Proof.
  refine (inj_countable' (fun k => (HashKey_Type k, HashKey_Value k))
                         (fun p => mkHashKey p.1 p.2) _).
  by intros [].
Defined.

(** The concrete types of this package that implement [Object]; every one
    of them is used through a pointer receiver. *)
Inductive Concrete : Type :=
  | PInteger | PBoolean | PNull | PReturnValue | PError
  | PFunction | PString | PBuiltin | PArray | PHash.

#[global] Instance Concrete_eq_dec : EqDecision Concrete.
Proof. solve_decision. Defined.

(** A non-nil [Object] interface value: dynamic type and pointer. *)
Record Object : Type := mkObject {
  dyn : Concrete;
  ptr : loc
}.

#[global] Instance Object_eq_dec : EqDecision Object.
Proof. solve_decision. Defined.

(** A Go map value is [nil] or a table.  Reading a nil map yields the zero
    value and [ok = false]; assigning into a nil map panics. *)
Definition gomap (K : Type) `{Countable K} (V : Type) : Type := option (gmap K V).

Definition map_index {K} `{Countable K} {V} (m : gomap K V) (k : K) : option V :=
  match m with
  | Some t => t !! k
  | None => None
  end.

Definition map_assign {K} `{Countable K} {V} (m : gomap K V) (k : K) (v : V)
  : option (gomap K V) :=
  match m with
  | Some t => Some (Some (<[k := v]> t))
  | None => None
  end.

(** The structs.  [hashKey *HashKey] points to a private copy that nothing
    else aliases, so the cache is an [option]. *)
Record Integer : Type := mkInteger {
  Integer_Value : Z;                       (* int64 *)
  Integer_hashKey : option HashKey
}.

Record Boolean : Type := mkBoolean {
  Boolean_Value : bool;
  Boolean_hashKey : option HashKey
}.

Record String : Type := mkString {
  String_Value : string;
  String_hashKey : option HashKey
}.

Record HashPair : Type := mkHashPair {
  HashPair_Key : Object;
  HashPair_Value : Object
}.

(** [type HashChain []HashPair].  Inside this package a chain is only ever
    held by the one map entry it is stored under, so the slice is modelled
    by its contents. *)
Abbreviation HashChain := (list HashPair).

Record Hash : Type := mkHash {
  Hash_Pairs : gomap HashKey HashChain
}.

Record Environment : Type := mkEnvironment {
  Environment_store : gomap string Object;
  Environment_outer : option loc           (* *Environment, None is nil *)
}.

(** The store: one table per struct type whose fields the functions below
    read, and the allocation pointer. *)
Record State : Type := mkState {
  integers : gmap loc Integer;
  booleans : gmap loc Boolean;
  strings : gmap loc String;
  hashes : gmap loc Hash;
  environments : gmap loc Environment;
  next : loc
}.

Definition set_integer (p : loc) (x : Integer) (s : State) : State :=
  mkState (<[p := x]> (integers s)) (booleans s) (strings s) (hashes s)
          (environments s) (next s).

Definition set_boolean (p : loc) (x : Boolean) (s : State) : State :=
  mkState (integers s) (<[p := x]> (booleans s)) (strings s) (hashes s)
          (environments s) (next s).

Definition set_string (p : loc) (x : String) (s : State) : State :=
  mkState (integers s) (booleans s) (<[p := x]> (strings s)) (hashes s)
          (environments s) (next s).

Definition set_hash (p : loc) (x : Hash) (s : State) : State :=
  mkState (integers s) (booleans s) (strings s) (<[p := x]> (hashes s))
          (environments s) (next s).

Definition set_environment (p : loc) (x : Environment) (s : State) : State :=
  mkState (integers s) (booleans s) (strings s) (hashes s)
          (<[p := x]> (environments s)) (next s).

Definition bump (s : State) : State :=
  mkState (integers s) (booleans s) (strings s) (hashes s)
          (environments s) (Pos.succ (next s)).

(** The package-level variables [TRUE] and [FALSE]; nothing assigns to them
    after initialisation.  [init] is the store once the package is loaded. *)
Definition TRUE : loc := 1%positive.
Definition FALSE : loc := 2%positive.

Definition init : State :=
  mkState ∅
          (<[FALSE := mkBoolean false None]> (<[TRUE := mkBoolean true None]> ∅))
          ∅ ∅ ∅ 3%positive.

(** The [Type()] methods.  None of them dereferences its receiver. *)
Definition Type_ (o : Object) : ObjectType :=
  match dyn o with
  | PInteger => INTEGER_OBJ
  | PBoolean => BOOLEAN_OBJ
  | PNull => NULL_OBJ
  | PReturnValue => RETURN_VALUE_OBJ
  | PError => ERROR_OBJ
  | PFunction => FUNCTION_OBJ
  | PString => STRING_OBJ
  | PBuiltin => BUILTIN_OBJ
  | PArray => ARRAY_OBJ
  | PHash => HASH_OBJ
  end.

(** [uint64(v)] for an [int64] [v]. *)
Definition uint64 (v : Z) : Z := v mod 2 ^ 64.

(** Go standard library, [hash/fnv]: [New64a], [Write], [Sum64]. *)
Definition offset64 : Z := 14695981039346656037.
Definition prime64 : Z := 1099511628211.

Definition fnv64a_Write (hash : Z) (data : list Ascii.ascii) : Z :=
  fold_left
    (fun h c => (Z.lxor h (Z.of_N (Ascii.N_of_ascii c)) * prime64) mod 2 ^ 64)
    data hash.

Definition fnv64a (s : string) : Z :=
  fnv64a_Write offset64 (String.list_ascii_of_string s).

(** [func (i *Integer) HashKey() HashKey] *)
Definition Integer_HashKey (i : loc) (s : State) : option (HashKey * State) :=
  I ← integers s !! i;
  match Integer_hashKey I with
  | Some cached => Some (cached, s)
  | None =>
      let hash := mkHashKey INTEGER_OBJ (uint64 (Integer_Value I)) in
      Some (hash, set_integer i (mkInteger (Integer_Value I) (Some hash)) s)
  end.

(** [func NewInteger(value int64) *Integer] *)
Definition NewInteger (value : Z) (s : State) : loc * State :=
  (next s, bump (set_integer (next s) (mkInteger value None) s)).

(** [func (b *Boolean) HashKey() HashKey] *)
Definition Boolean_HashKey (b : loc) (s : State) : option (HashKey * State) :=
  B ← booleans s !! b;
  match Boolean_hashKey B with
  | Some cached => Some (cached, s)
  | None =>
      let value := if Boolean_Value B then 1 else 0 in
      let hash := mkHashKey BOOLEAN_OBJ value in
      Some (hash, set_boolean b (mkBoolean (Boolean_Value B) (Some hash)) s)
  end.

(** [func GetBooleanObject(input bool) *Boolean] *)
Definition GetBooleanObject (input : bool) (s : State) : loc * State :=
  if input then (TRUE, s) else (FALSE, s).

(** [func (s *String) HashKey() HashKey] *)
Definition String_HashKey (p : loc) (s : State) : option (HashKey * State) :=
  S ← strings s !! p;
  match String_hashKey S with
  | Some cached => Some (cached, s)
  | None =>
      let hash := mkHashKey STRING_OBJ (fnv64a (String_Value S)) in
      Some (hash, set_string p (mkString (String_Value S) (Some hash)) s)
  end.

(** [func NewString(value string) *String] *)
Definition NewString (value : string) (s : State) : loc * State :=
  (next s, bump (set_string (next s) (mkString value None) s)).

(** The type assertion [key.(Hashable)]: the [HashKey] method of the
    dynamic type when it has one. *)
Definition Hashable (key : Object) : option (State -> option (HashKey * State)) :=
  match dyn key with
  | PInteger => Some (Integer_HashKey (ptr key))
  | PBoolean => Some (Boolean_HashKey (ptr key))
  | PString => Some (String_HashKey (ptr key))
  | _ => None
  end.

(** The type assertions of [b] to a pointer to [String], [Integer] or
    [Boolean], followed by the field read; a wrong dynamic type or a nil
    pointer panics. *)
Definition as_String (s : State) (b : Object) : option String :=
  match dyn b with
  | PString => strings s !! ptr b
  | _ => None
  end.

Definition as_Integer (s : State) (b : Object) : option Integer :=
  match dyn b with
  | PInteger => integers s !! ptr b
  | _ => None
  end.

Definition as_Boolean (s : State) (b : Object) : option Boolean :=
  match dyn b with
  | PBoolean => booleans s !! ptr b
  | _ => None
  end.

(** [func compareObjects(a, b Object) bool] *)
Definition compareObjects (s : State) (a b : Object) : option bool :=
  if negb (String.eqb (Type_ a) (Type_ b)) then Some false
  else
    match dyn a with
    | PString =>
        A ← strings s !! ptr a; B ← as_String s b;
        Some (String.eqb (String_Value A) (String_Value B))
    | PInteger =>
        A ← integers s !! ptr a; B ← as_Integer s b;
        Some (Z.eqb (Integer_Value A) (Integer_Value B))
    | PBoolean =>
        A ← booleans s !! ptr a; B ← as_Boolean s b;
        Some (Bool.eqb (Boolean_Value A) (Boolean_Value B))
    | _ => Some false
    end.

(** [func (chain HashChain) FindPair(key Object) (HashPair, bool)]: the
    pair when [ok], [None] for [(HashPair{}, false)]. *)
Fixpoint FindPair (s : State) (chain : HashChain) (key : Object)
  : option (option HashPair) :=
  match chain with
  | [] => Some None
  | p :: rest =>
      c ← compareObjects s (HashPair_Key p) key;
      if c : bool then Some (Some p) else FindPair s rest key
  end.

(** [func NewHash() *Hash] *)
Definition NewHash (s : State) : loc * State :=
  (next s, bump (set_hash (next s) (mkHash (Some ∅)) s)).

(** The [for i, pair := range chain] loop of [Add], entered at index [i]
    with [rest] still to visit: the chain with [chain[i] = newPair] done at
    the first index whose key compares equal, [None] when the loop runs to
    its end. *)
Fixpoint Add_range (s : State) (chain : HashChain) (i : nat) (rest : HashChain)
    (key : Object) (newPair : HashPair) : option (option HashChain) :=
  match rest with
  | [] => Some None
  | p :: rest' =>
      c ← compareObjects s (HashPair_Key p) key;
      if c : bool then Some (Some (<[i := newPair]> chain))
      else Add_range s chain (S i) rest' key newPair
  end.

(** [func (h *Hash) Add(key, value Object) error]; the [error] is its
    message, [None] for nil. *)
Definition Add (h : loc) (key value : Object) (s : State)
  : option (option string * State) :=
  match Hashable key with
  | None => Some (Some ("unusable as hash key: " +:+ Type_ key), s)
  | Some hashKey =>
      '(hashed, s1) ← hashKey s;
      H ← hashes s1 !! h;
      let chain := default [] (map_index (Hash_Pairs H) hashed) in
      let newPair := mkHashPair key value in
      updated ← Add_range s1 chain 0 chain key newPair;
      let chain' :=
        match updated with
        | Some chain' => chain'
        | None => chain ++ [newPair]
        end in
      Pairs' ← map_assign (Hash_Pairs H) hashed chain';
      Some (None, set_hash h (mkHash Pairs') s1)
  end.

(** [func NewEnvironment() *Environment] *)
Definition NewEnvironment (s : State) : loc * State :=
  (next s, bump (set_environment (next s) (mkEnvironment (Some ∅) None) s)).

(** [func NewClosedEnvironment(outer *Environment) *Environment]; the
    assignment [env.outer = outer] goes through the pointer just returned
    by [NewEnvironment], so the read of [env] always succeeds. *)
Definition NewClosedEnvironment (outer : option loc) (s : State) : loc * State :=
  let '(env, s1) := NewEnvironment s in
  match environments s1 !! env with
  | Some E =>
      (env, set_environment env (mkEnvironment (Environment_store E) outer) s1)
  | None => (env, s1)
  end.

(** [func (e *Environment) Get(name string) (Object, bool)].  The recursion
    follows [outer] pointers through the store, so it is bounded by [fuel];
    running out of fuel is the outer [None], like a panic. *)
Fixpoint Get (fuel : nat) (s : State) (e : loc) (name : string)
  : option (option Object) :=
  match fuel with
  | O => None
  | S fuel' =>
      E ← environments s !! e;
      match map_index (Environment_store E) name, Environment_outer E with
      | None, Some outer => Get fuel' s outer name
      | found, _ => Some found
      end
  end.

(** [func (e *Environment) Set(name string, val Object) Object] *)
Definition Set_ (e : loc) (name : string) (val : Object) (s : State)
  : option (Object * State) :=
  E ← environments s !! e;
  store' ← map_assign (Environment_store E) name val;
  Some (val, set_environment e (mkEnvironment store' (Environment_outer E)) s).

End object.

(* ===================================================================== *)
(** ** Package [repl] *)
(* ===================================================================== *)

Module repl.

Import object.

(** Characters a Go literal writes with an escape or that a string
    literal here cannot hold. *)
Definition nl : string := String.String (Ascii.ascii_of_nat 10) "".
Definition tab : string := String.String (Ascii.ascii_of_nat 9) "".
Definition esc : string := String.String (Ascii.ascii_of_nat 27) "".
Definition dq : string := String.String (Ascii.ascii_of_nat 34) "".
Definition bs : string := String.String (Ascii.ascii_of_nat 92) "".

Definition PROMPT : string := ">> ".

Definition ColorReset : string := esc +:+ "[0m".
Definition ColorOrange : string := esc +:+ "[38;5;208m".

Definition MONKEY_FACE : string :=
  ColorOrange
  +:+ nl
  +:+ "            __,__" +:+ nl
  +:+ "   .--.  .-" +:+ dq +:+ "     " +:+ dq +:+ "-.  .--." +:+ nl
  +:+ "  / .. \/  .-. .-.  \/ .. " +:+ bs +:+ nl
  +:+ " | |  '|  /   Y   \  |'  | |" +:+ nl
  +:+ " | \   \  \ 0 | 0 /  /   / |" +:+ nl
  +:+ "  \ '- ,\.-" +:+ dq +:+ dq +:+ dq +:+ dq +:+ dq +:+ dq +:+ dq +:+ "-./, -' /" +:+ nl
  +:+ "   ''-' /_   ^ ^   _\ '-''" +:+ nl
  +:+ "       |  \._   _./  |" +:+ nl
  +:+ "       \   \ '~' /   /" +:+ nl
  +:+ "        '._ '-=-' _.'" +:+ nl
  +:+ "           '-----'" +:+ nl
  +:+ nl
  +:+ " ███╗   ███╗ ██████╗ ███╗   ██╗██╗  ██╗███████╗██╗   ██╗" +:+ nl
  +:+ " ████╗ ████║██╔═══██╗████╗  ██║██║ ██╔╝██╔════╝╚██╗ ██╔╝" +:+ nl
  +:+ " ██╔████╔██║██║   ██║██╔██╗ ██║█████╔╝ █████╗   ╚████╔╝ " +:+ nl
  +:+ " ██║╚██╔╝██║██║   ██║██║╚██╗██║██╔═██╗ ██╔══╝    ╚██╔╝  " +:+ nl
  +:+ " ██║ ╚═╝ ██║╚██████╔╝██║ ╚████║██║  ██╗███████╗   ██║   " +:+ nl
  +:+ " ╚═╝     ╚═╝ ╚═════╝ ╚═╝  ╚═══╝╚═╝  ╚═╝╚══════╝   ╚═╝   " +:+ nl
  +:+ "         SYNTAX ERROR - TIME TO DEBUG!" +:+ nl
  +:+ ColorReset.

Declare Scope repl_scope.
Notation "'let*' x ':=' t 'in' k" := (ITree.bind t (fun x => k))
  (at level 10, x pattern, t at level 100, k at level 200, only parsing) : repl_scope.
Notation "t '>>' k" := (ITree.bind t (fun _ => k))
  (at level 100, k at level 200, right associativity, only parsing) : repl_scope.
Local Open Scope repl_scope.

Section Shell.

(** [ast.Program]; packages [ast], [lexer], [parser] and [evaluator] are
    outside this development. *)
Variable Program : Type.

(** What [Start] does to the world around it: writes to [out], reads of
    the scanner, and calls into the other packages. *)
Variant replE : Type -> Type :=
  | Write (text : string) : replE unit
      (* fmt.Fprintf(out, text), io.WriteString(out, text) *)
  | Scan : replE (option string)
      (* scanner.Scan(), then scanner.Text() when it returned true *)
  | NewEnvironment : replE loc
      (* object.NewEnvironment() *)
  | ParseProgram (line : string) : replE (Program * list string)
      (* lexer.New(line), parser.New(l), p.ParseProgram(); the second
         component is p.Errors() *)
  | Eval (program : Program) (env : loc) : replE (option Object)
      (* evaluator.Eval(program, env); None is a nil Object *)
  | Inspect (evaluated : Object) : replE string.
      (* evaluated.Inspect() *)

(** The [for _, msg := range errors] loop of [printParserErrors]. *)
Fixpoint printParserErrors_range (errors : list string) : itree replE unit :=
  match errors with
  | [] => Ret tt
  | msg :: rest =>
      ITree.trigger (Write (tab +:+ msg +:+ nl)) >>
      printParserErrors_range rest
  end.

(** [func printParserErrors(out io.Writer, errors []string)] *)
Definition printParserErrors (errors : list string) : itree replE unit :=
  ITree.trigger (Write MONKEY_FACE) >>
  ITree.trigger (Write ("Whoops! We ran into some monkey business here!" +:+ nl)) >>
  ITree.trigger (Write (" parser errors:" +:+ nl)) >>
  printParserErrors_range errors.

(** The body of the [for] loop of [Start]: [inl tt] goes round again
    ([continue], or the end of the body), [inr tt] is [return]. *)
Definition Start_body (env : loc) : itree replE (unit + unit) :=
  ITree.trigger (Write PROMPT) >>
  let* scanned := ITree.trigger Scan in
  match scanned with
  | None => Ret (inr tt)
  | Some line =>
      let* (program, errors) := ITree.trigger (ParseProgram line) in
      if negb (Nat.eqb (length errors) 0) then
        printParserErrors errors >>
        Ret (inl tt)
      else
        let* evaluated := ITree.trigger (Eval program env) in
        match evaluated with
        | Some o =>
            let* text := ITree.trigger (Inspect o) in
            ITree.trigger (Write text) >>
            ITree.trigger (Write nl) >>
            Ret (inl tt)
        | None => Ret (inl tt)
        end
  end.

(** [func Start(in io.Reader, out io.Writer)] *)
Definition Start : itree replE unit :=
  let* env := ITree.trigger NewEnvironment in
  ITree.iter (fun _ : unit => Start_body env) tt.

(** *** One session

    The scanner delivers the lines of [stdin] in order and then reports
    the end of the input.  The parser is a function of the line.  The
    evaluator is a function of the program, the environment pointer and the
    store; it may fail to return (a panic, a runaway recursion of the
    program it runs), which is [None] and ends the process.  [inspect]
    renders an object.  Every event is recorded, in order, with what it was
    answered. *)
Variable parse : string -> Program * list string.
Variable eval : Program -> loc -> State -> option (option Object * State).
Variable inspect : Object -> State -> string.

Inductive Event : Type :=
  | Wrote (text : string)
  | Scanned (scanned : option string)
  | Created (env : loc) (after : State)
  | Parsed (line : string) (program : Program) (errors : list string)
  | Evaluated (program : Program) (env : loc) (before : State)
              (returned : option (option Object * State))
  | Inspected (evaluated : Object) (text : string).

Record World : Type := mkWorld {
  stdin : list string;
  heap : State;
  trace : list Event
}.

(** The end of the process when the evaluator does not return, with the
    world as it is then. *)
Variant crashE : Type -> Type :=
  | Crash (w : World) : crashE void.

Definition handle : replE ~> Monads.stateT World (itree crashE) :=
  fun _ e w =>
    match e with
    | Write text =>
        Ret (mkWorld (stdin w) (heap w) (trace w ++ [Wrote text]), tt)
    | Scan =>
        match stdin w with
        | [] => Ret (mkWorld [] (heap w) (trace w ++ [Scanned None]), None)
        | line :: rest =>
            Ret (mkWorld rest (heap w) (trace w ++ [Scanned (Some line)]), Some line)
        end
    | NewEnvironment =>
        let '(env, s) := object.NewEnvironment (heap w) in
        Ret (mkWorld (stdin w) s (trace w ++ [Created env s]), env)
    | ParseProgram line =>
        let '(program, errors) := parse line in
        Ret (mkWorld (stdin w) (heap w) (trace w ++ [Parsed line program errors]),
             (program, errors))
    | Eval program env =>
        match eval program env (heap w) with
        | Some (evaluated, s) =>
            Ret (mkWorld (stdin w) s
                   (trace w ++ [Evaluated program env (heap w) (Some (evaluated, s))]),
                 evaluated)
        | None =>
            Vis (Crash (mkWorld (stdin w) (heap w)
                          (trace w ++ [Evaluated program env (heap w) None])))
                (fun v : void => match v with end)
        end
    | Inspect o =>
        let text := inspect o (heap w) in
        Ret (mkWorld (stdin w) (heap w) (trace w ++ [Inspected o text]), text)
    end.

(** *** What a session does

    The events of a session, the store it ends in and whether [Start]
    returned, computed directly from the input; [Start_run] below shows
    that this is what [Start] does under [handle]. *)

(** What [printParserErrors] writes, in order. *)
Definition error_lines (errors : list string) : list string :=
  [MONKEY_FACE;
   "Whoops! We ran into some monkey business here!" +:+ nl;
   " parser errors:" +:+ nl]
  ++ List.map (fun msg => tab +:+ msg +:+ nl) errors.

(** The events of printing a result. *)
Definition shown (evaluated : option Object) (s : State) : list Event :=
  match evaluated with
  | Some o => [Inspected o (inspect o s); Wrote (inspect o s); Wrote nl]
  | None => []
  end.

(** The events of the loop of [Start] on the lines still to come, the
    store it ends with, and whether it came to its [return]. *)
Fixpoint loop_events (env : loc) (lines : list string) (s : State)
  : list Event * State * bool :=
  match lines with
  | [] => ([Wrote PROMPT; Scanned None], s, true)
  | line :: rest =>
      let '(program, errors) := parse line in
      if negb (Nat.eqb (length errors) 0) then
        let '(tr, s', returned) := loop_events env rest s in
        ([Wrote PROMPT; Scanned (Some line); Parsed line program errors]
           ++ List.map Wrote (error_lines errors) ++ tr, s', returned)
      else
        match eval program env s with
        | Some (evaluated, s1) =>
            let '(tr, s', returned) := loop_events env rest s1 in
            ([Wrote PROMPT; Scanned (Some line); Parsed line program errors;
              Evaluated program env s (Some (evaluated, s1))]
               ++ shown evaluated s1 ++ tr, s', returned)
        | None =>
            ([Wrote PROMPT; Scanned (Some line); Parsed line program errors;
              Evaluated program env s None], s, false)
        end
  end.

(** The lines the scanner has not handed out when the loop stops. *)
Fixpoint unread (env : loc) (lines : list string) (s : State) : list string :=
  match lines with
  | [] => []
  | line :: rest =>
      let '(program, errors) := parse line in
      if negb (Nat.eqb (length errors) 0) then unread env rest s
      else
        match eval program env s with
        | Some (_, s1) => unread env rest s1
        | None => rest
        end
  end.

(** The world a session ends in, and whether [Start] returned. *)
Definition session (lines : list string) (s : State) : World * bool :=
  let '(env, s0) := object.NewEnvironment s in
  let '(tr, s', returned) := loop_events env lines s0 in
  (mkWorld (unread env lines s0) s' (Created env s0 :: tr), returned).

(** The tree a session comes down to. *)
Definition outcome (r : World * bool) : itree crashE (World * unit) :=
  if r.2 then Ret (r.1, tt)
  else Vis (Crash r.1) (fun v : void => match v with end).

(** Recognisers for the kinds of event. *)
Definition is_Parsed (e : Event) : Prop :=
  match e with Parsed _ _ _ => True | _ => False end.

Definition is_Evaluated (e : Event) : Prop :=
  match e with Evaluated _ _ _ _ => True | _ => False end.

Definition is_Created (e : Event) : Prop :=
  match e with Created _ _ => True | _ => False end.

(** The lines handed to the parser, in order. *)
Definition parsed_lines (tr : list Event) : list string :=
  omap (fun e => match e with Parsed line _ _ => Some line | _ => None end) tr.

(** The stores each call of the evaluator that returned started from and
    ended in. *)
Definition evaluations (tr : list Event) : list (State * State) :=
  omap (fun e => match e with
                 | Evaluated _ _ before (Some (_, after)) => Some (before, after)
                 | _ => None
                 end) tr.

(** Each evaluation starts in the store the one before it ended in, the
    first in [s], and the last ends in [final]. *)
Fixpoint threaded (s : State) (evals : list (State * State)) (final : State) : Prop :=
  match evals with
  | [] => s = final
  | (before, after) :: rest => before = s /\ threaded after rest final
  end.

(** The form of the events of the loop: a run of per-line blocks, closed
    by the prompt and the scan that reports the end of the input, or cut
    short by a call of the evaluator that does not return. *)
Inductive loop_shape (env : loc) : list Event -> Prop :=
  | shape_end :
      loop_shape env [Wrote PROMPT; Scanned None]
  | shape_stuck line program before :
      eval program env before = None ->
      loop_shape env [Wrote PROMPT; Scanned (Some line); Parsed line program [];
                      Evaluated program env before None]
  | shape_errors line program errors tr :
      errors <> [] ->
      loop_shape env tr ->
      loop_shape env ([Wrote PROMPT; Scanned (Some line); Parsed line program errors]
                        ++ List.map Wrote (error_lines errors) ++ tr)
  | shape_evaluated line program before evaluated after tr :
      eval program env before = Some (evaluated, after) ->
      loop_shape env tr ->
      loop_shape env ([Wrote PROMPT; Scanned (Some line); Parsed line program [];
                       Evaluated program env before (Some (evaluated, after))]
                        ++ shown evaluated after ++ tr).

(** Recogniser for scans. *)
Definition is_Scanned (e : Event) : Prop :=
  match e with Scanned _ => True | _ => False end.

End Shell.

End repl.

(* ===================================================================== *)
(** ** Vocabulary of the statements *)
(* ===================================================================== *)

Import object.

(** What [key.HashKey()] returns when called in store [s]. *)
Definition HashKey_of (s : State) (key : Object) : option HashKey :=
  match Hashable key with
  | Some hashKey => fst <$> hashKey s
  | None => None
  end.

(** The read [h.Pairs[hashed]]. *)
Definition Pairs_at (s : State) (h : loc) (hashed : HashKey) : option HashChain :=
  H ← hashes s !! h;
  Some (default [] (map_index (Hash_Pairs H) hashed)).

(** The pointer of an object of a hashable type is live. *)
Definition valid (s : State) (o : Object) : Prop :=
  match dyn o with
  | PInteger => is_Some (integers s !! ptr o)
  | PBoolean => is_Some (booleans s !! ptr o)
  | PString => is_Some (strings s !! ptr o)
  | _ => True
  end.

(** Two stores hold the same [Value] in every Integer, Boolean and String. *)
Definition values_eq (s s' : State) : Prop :=
  (forall p, Integer_Value <$> integers s' !! p = Integer_Value <$> integers s !! p)
  /\ (forall p, Boolean_Value <$> booleans s' !! p = Boolean_Value <$> booleans s !! p)
  /\ (forall p, String_Value <$> strings s' !! p = String_Value <$> strings s !! p).

(** The [range] loop of [Add] seen from the part of the chain still to
    visit, the visited prefix being left as it is; [Add_range] is this
    function behind the prefix (lemma [Add_range_replace_first]). *)
Fixpoint replace_first (s : State) (rest : HashChain) (key : Object)
    (newPair : HashPair) : option (option HashChain) :=
  match rest with
  | [] => Some None
  | p :: rest' =>
      c ← compareObjects s (HashPair_Key p) key;
      if c : bool then Some (Some (newPair :: rest'))
      else option_map (option_map (cons p)) (replace_first s rest' key newPair)
  end.

(** The chain after the loop and the append, as [Add] stores it. *)
Definition stored (chain : HashChain) (newPair : HashPair)
    (updated : option HashChain) : HashChain :=
  match updated with
  | Some chain' => chain'
  | None => chain ++ [newPair]
  end.

(** The hash at [h] is allocated and its [Pairs] map is not nil, as
    [NewHash] leaves it. *)
Definition Hash_ready (s : State) (h : loc) : Prop :=
  exists H t, hashes s !! h = Some H /\ Hash_Pairs H = Some t.

(** A run of [Add] calls on one hash, in order; a returned error is
    dropped and the run goes on, a panic ends it. *)
Fixpoint Add_all (h : loc) (pairs : list (Object * Object)) (s : State)
  : option State :=
  match pairs with
  | [] => Some s
  | (key, value) :: rest =>
      match Add h key value s with
      | Some (_, s1) => Add_all h rest s1
      | None => None
      end
  end.

(** The hash key an object's [HashKey] method computes from its [Value]
    when nothing is cached. *)
Definition computed (s : State) (o : Object) : option HashKey :=
  match dyn o with
  | PInteger =>
      I ← integers s !! ptr o;
      Some (mkHashKey INTEGER_OBJ (uint64 (Integer_Value I)))
  | PBoolean =>
      B ← booleans s !! ptr o;
      Some (mkHashKey BOOLEAN_OBJ (if Boolean_Value B then 1 else 0))
  | PString =>
      S ← strings s !! ptr o;
      Some (mkHashKey STRING_OBJ (fnv64a (String_Value S)))
  | _ => None
  end.

(** The field [hashKey] of an object. *)
Definition cached (s : State) (o : Object) : option HashKey :=
  match dyn o with
  | PInteger => I ← integers s !! ptr o; Integer_hashKey I
  | PBoolean => B ← booleans s !! ptr o; Boolean_hashKey B
  | PString => S ← strings s !! ptr o; String_hashKey S
  | _ => None
  end.

(** The cache of [o] is empty or holds the key of the current [Value]:
    [Value] has not been assigned to since the key was computed. *)
Definition cache_ok (s : State) (o : Object) : Prop :=
  cached s o = None \/ cached s o = computed s o.

Definition caches_ok (s : State) : Prop := forall o, cache_ok s o.

(** The environments from [e] outwards, innermost first, ending at the one
    whose [outer] is nil. *)
Inductive env_chain (s : State) : loc -> list Environment -> Prop :=
  | env_chain_root e E :
      environments s !! e = Some E ->
      Environment_outer E = None ->
      env_chain s e [E]
  | env_chain_outer e E outer chain :
      environments s !! e = Some E ->
      Environment_outer E = Some outer ->
      env_chain s outer chain ->
      env_chain s e (E :: chain).

(** The representation invariant of a chain stored under [hk]: its keys
    are live hashable objects whose hash key is [hk], and no two positions
    hold object-equal keys. *)
Definition chain_ok (s : State) (hk : HashKey) (chain : HashChain) : Prop :=
  (forall p, p ∈ chain ->
     valid s (HashPair_Key p) /\ HashKey_of s (HashPair_Key p) = Some hk)
  /\ (forall i j p q, chain !! i = Some p -> chain !! j = Some q ->
        compareObjects s (HashPair_Key p) (HashPair_Key q) = Some true -> i = j).

(** The invariant of a hash: its map is not nil and every chain is in
    order. *)
Definition Hash_ok (s : State) (h : loc) : Prop :=
  Hash_ready s h
  /\ forall hk chain, Pairs_at s h hk = Some chain -> chain_ok s hk chain.

(** Every environment was allocated before [next], and an [outer] pointer
    points to an environment allocated earlier: what [NewEnvironment] and
    [NewClosedEnvironment], the only writers of [outer], maintain. *)
Definition envs_ok (s : State) : Prop :=
  forall e E, environments s !! e = Some E ->
    (e < next s)%positive
    /\ forall outer, Environment_outer E = Some outer ->
         (outer < e)%positive /\ is_Some (environments s !! outer).

(** *** Sample data

    A store to try the statements on.  Two strings at [3] and [4] whose
    cached hash keys have been forced to the same value, as a test inside
    the package can do; the integer [-1] at [5]; an empty hash at [6]; a root
    environment at [7] and an environment enclosed in it at [8]. *)
Definition key_one : Object := mkObject PString 3%positive.
Definition key_two : Object := mkObject PString 4%positive.
Definition minus_one : Object := mkObject PInteger 5%positive.
Definition true_object : Object := mkObject PBoolean TRUE.
Definition false_object : Object := mkObject PBoolean FALSE.
Definition hash_object : Object := mkObject PHash 6%positive.

Definition sample : State :=
  let s := (NewString "one" init).2 in
  let s := (NewString "two" s).2 in
  let s := set_string 3%positive (mkString "one" (Some (mkHashKey STRING_OBJ 1))) s in
  let s := set_string 4%positive (mkString "two" (Some (mkHashKey STRING_OBJ 1))) s in
  let s := (NewInteger (-1) s).2 in
  let s := (NewHash s).2 in
  let s := (NewEnvironment s).2 in
  let s := (NewClosedEnvironment (Some 7%positive) s).2 in
  let s := from_option snd s (Set_ 7%positive "x" minus_one s) in
  let s := from_option snd s (Set_ 7%positive "y" true_object s) in
  from_option snd s (Set_ 8%positive "x" key_one s).

Definition sample1 : State :=
  from_option snd sample (Add 6%positive key_one true_object sample).

Definition sample2 : State :=
  from_option snd sample1 (Add 6%positive key_two minus_one sample1).

(** A store made by the functions of the package alone, so that no cache
    is stale: two Strings [one] at [3] and [4], the integer [-1] at [5] and
    an empty hash at [6]; and that store after [key_one] has been added to
    the hash. *)
Definition plain : State :=
  (NewHash (NewInteger (-1) (NewString "one" (NewString "one" init).2).2).2).2.

Definition plain1 : State :=
  from_option snd plain (Add 6%positive key_one true_object plain).

(** A stand-in for the parser, the evaluator and [Inspect]: one line is
    rejected, any other parses to its length, which the evaluator
    allocates as an Integer, except that it does not return on a program
    of length six. *)
Definition sample_parse (line : string) : nat * list string :=
  if String.eqb line "let = 5;"
  then (0%nat, ["expected next token to be IDENT, got = instead"])
  else (String.length line, []).

Definition sample_eval (program : nat) (env : loc) (s : State)
  : option (option Object * State) :=
  if Nat.eqb program 6 then None
  else
    let '(i, s') := NewInteger (Z.of_nat program) s in
    Some (Some (mkObject PInteger i), s').

Definition sample_inspect (o : Object) (s : State) : string :=
  match dyn o with
  | PInteger => "integer"
  | _ => "object"
  end.

Definition sample_lines : list string := ["let x = 5;"; "let = 5;"; "x"].

(* ===================================================================== *)
(** ** Properties of package [object] *)
(* ===================================================================== *)

Lemma values_eq_refl s : values_eq s s.
Proof. by repeat split. Qed.

Lemma values_eq_trans s1 s2 s3 :
  values_eq s1 s2 -> values_eq s2 s3 -> values_eq s1 s3.
Proof.
  intros (A1 & B1 & C1) (A2 & B2 & C2).
  repeat split; intros p; [rewrite A2, A1 | rewrite B2, B1 | rewrite C2, C1]; done.
Qed.

Lemma Type_inj a b : Type_ a = Type_ b -> dyn a = dyn b.
Proof. unfold Type_. by destruct (dyn a), (dyn b). Qed.

Lemma Type_eqb a b : String.eqb (Type_ a) (Type_ b) = bool_decide (dyn a = dyn b).
Proof.
  case_bool_decide as E.
  - unfold Type_. rewrite E. apply String.eqb_refl.
  - apply String.eqb_neq. intros T. by apply E, Type_inj.
Qed.

Ltac fmap_inv H p :=
  let X := fresh in
  pose proof (H p) as X; simpl in X;
  repeat match type of X with
         | context [?m !! p] => destruct (m !! p) eqn:?; simpl in X
         end;
  simplify_eq.

Lemma compareObjects_values_eq s s' a b :
  values_eq s s' -> compareObjects s' a b = compareObjects s a b.
Proof.
  intros (HI & HB & HS). unfold compareObjects, as_String, as_Integer, as_Boolean.
  destruct (negb _); [done |].
  destruct (dyn a); try done.
  - destruct (dyn b); fmap_inv HI (ptr a); simpl; try done; fmap_inv HI (ptr b); simpl; congruence.
  - destruct (dyn b); fmap_inv HB (ptr a); simpl; try done; fmap_inv HB (ptr b); simpl; congruence.
  - destruct (dyn b); fmap_inv HS (ptr a); simpl; try done; fmap_inv HS (ptr b); simpl; congruence.
Qed.

Lemma FindPair_values_eq s s' chain key :
  values_eq s s' -> FindPair s' chain key = FindPair s chain key.
Proof.
  intros V. induction chain as [|p chain IH]; simpl; [done |].
  rewrite (compareObjects_values_eq s s') by done.
  destruct (compareObjects s _ key) as [[]|]; simpl; done.
Qed.

Lemma compareObjects_sym s a b : compareObjects s a b = compareObjects s b a.
Proof.
  unfold compareObjects. rewrite !Type_eqb.
  rewrite (bool_decide_ext (dyn b = dyn a) (dyn a = dyn b)) by done.
  case_bool_decide as E; simpl; [| done].
  unfold as_String, as_Integer, as_Boolean. rewrite <- E.
  destruct (dyn a); try done.
  - destruct (integers s !! ptr a), (integers s !! ptr b); simpl; try done.
    by rewrite Z.eqb_sym.
  - destruct (booleans s !! ptr a) as [[[] ?]|], (booleans s !! ptr b) as [[[] ?]|]; done.
  - destruct (strings s !! ptr a), (strings s !! ptr b); simpl; try done.
    by rewrite String.eqb_sym.
Qed.

Lemma compareObjects_refl s k :
  is_Some (Hashable k) -> valid s k -> compareObjects s k k = Some true.
Proof.
  unfold compareObjects, Hashable, valid, as_String, as_Integer, as_Boolean.
  rewrite Type_eqb, bool_decide_eq_true_2 by done. simpl.
  destruct (dyn k); intros [m Hm]; simplify_eq; intros [x Hx]; rewrite Hx; simpl.
  - by rewrite Z.eqb_refl.
  - by destruct (Boolean_Value x).
  - by rewrite String.eqb_refl.
Qed.

(** Keys that compare equal to a common key compare equal to each other. *)
Lemma compareObjects_join s a k k' :
  compareObjects s a k = Some true -> compareObjects s a k' = Some true ->
  compareObjects s k' k = Some true.
Proof.
  unfold compareObjects. rewrite !Type_eqb.
  do 2 (case_bool_decide; simpl; [| done]).
  rewrite bool_decide_eq_true_2 by congruence. simpl.
  unfold as_String, as_Integer, as_Boolean.
  destruct (dyn a), (dyn k), (dyn k'); try done.
  - destruct (integers s !! ptr a), (integers s !! ptr k), (integers s !! ptr k');
      simpl; try done.
    intros [= ?%Z.eqb_eq] [= ?%Z.eqb_eq]. f_equal. apply Z.eqb_eq. congruence.
  - destruct (booleans s !! ptr a) as [[[] ?]|], (booleans s !! ptr k) as [[[] ?]|],
      (booleans s !! ptr k') as [[[] ?]|]; done.
  - destruct (strings s !! ptr a), (strings s !! ptr k), (strings s !! ptr k');
      simpl; try done.
    intros [= ?%String.eqb_eq] [= ?%String.eqb_eq]. f_equal. apply String.eqb_eq. congruence.
Qed.

(** A key that takes part in a successful comparison is live. *)
Lemma compareObjects_true_valid s a b :
  compareObjects s a b = Some true ->
  is_Some (Hashable a) /\ is_Some (Hashable b) /\ valid s a /\ valid s b /\ dyn a = dyn b.
Proof.
  unfold compareObjects, Hashable, valid, as_String, as_Integer, as_Boolean.
  rewrite Type_eqb. case_bool_decide as E; simpl; [| done].
  rewrite <- E.
  destruct (dyn a); try done.
  - destruct (integers s !! ptr a), (integers s !! ptr b); simpl; try done; eauto 10.
  - destruct (booleans s !! ptr a), (booleans s !! ptr b); simpl; try done; eauto 10.
  - destruct (strings s !! ptr a), (strings s !! ptr b); simpl; try done; eauto 10.
Qed.

Lemma compareObjects_total s a b :
  valid s a -> valid s b -> is_Some (compareObjects s a b).
Proof.
  unfold compareObjects, valid, as_String, as_Integer, as_Boolean.
  rewrite Type_eqb. case_bool_decide as E; simpl; [| eauto].
  rewrite <- E.
  destruct (dyn a); eauto; intros [? ->] [? ->]; simpl; eauto.
Qed.

(** What one call of a [HashKey] method does to the store. *)
Ltac insert_cases p q E :=
  destruct (decide (p = q)) as [<-|?];
  [ rewrite ?lookup_insert_eq, ?E
  | rewrite ?lookup_insert_ne by done;
    repeat match goal with
           | |- context [?m !! q] => destruct (m !! q) as [[? [?|]]|]
           end ];
  simpl; eauto.

Lemma HashKey_effect key hashKey s hk s1 :
  Hashable key = Some hashKey -> hashKey s = Some (hk, s1) ->
  values_eq s s1 /\ hashes s1 = hashes s /\ environments s1 = environments s
  /\ next s1 = next s /\ valid s key /\ hashKey s1 = Some (hk, s1)
  /\ (forall key', HashKey_of s1 key' = HashKey_of s key')
  /\ (forall o, valid s o <-> valid s1 o).
Proof.
  unfold Hashable, HashKey_of, valid, values_eq.
  destruct key as [d p]; simpl.
  destruct d; intros [= <-]; simpl.
  - unfold Integer_HashKey. destruct (integers s !! p) as [[v [c|]]|] eqn:E; simpl; [| |done].
    + intros [= <- <-]. rewrite E. simpl. repeat split; try done; eauto.
    + intros [= <- <-]. simpl. rewrite lookup_insert_eq. simpl.
      repeat split; try done; eauto.
      * intros q. insert_cases p q E.
      * intros [d' q]. unfold Hashable. simpl. destruct d'; simpl; try done.
        all: unfold Integer_HashKey, Boolean_HashKey, String_HashKey; simpl.
        all: first [ by destruct (_ !! q) as [[? [?|]]|] | insert_cases p q E ].
      * destruct o as [[] q]; simpl; try done. insert_cases p q E.
      * destruct o as [[] q]; simpl; try done. insert_cases p q E.
  - unfold Boolean_HashKey. destruct (booleans s !! p) as [[v [c|]]|] eqn:E; simpl; [| |done].
    + intros [= <- <-]. rewrite E. simpl. repeat split; try done; eauto.
    + intros [= <- <-]. simpl. rewrite lookup_insert_eq. simpl.
      repeat split; try done; eauto.
      * intros q. insert_cases p q E.
      * intros [d' q]. unfold Hashable. simpl. destruct d'; simpl; try done.
        all: unfold Integer_HashKey, Boolean_HashKey, String_HashKey; simpl.
        all: first [ by destruct (_ !! q) as [[? [?|]]|] | insert_cases p q E ].
      * destruct o as [[] q]; simpl; try done. insert_cases p q E.
      * destruct o as [[] q]; simpl; try done. insert_cases p q E.
  - unfold String_HashKey. destruct (strings s !! p) as [[v [c|]]|] eqn:E; simpl; [| |done].
    + intros [= <- <-]. rewrite E. simpl. repeat split; try done; eauto.
    + intros [= <- <-]. simpl. rewrite lookup_insert_eq. simpl.
      repeat split; try done; eauto.
      * intros q. insert_cases p q E.
      * intros [d' q]. unfold Hashable. simpl. destruct d'; simpl; try done.
        all: unfold Integer_HashKey, Boolean_HashKey, String_HashKey; simpl.
        all: first [ by destruct (_ !! q) as [[? [?|]]|] | insert_cases p q E ].
      * destruct o as [[] q]; simpl; try done. insert_cases p q E.
      * destruct o as [[] q]; simpl; try done. insert_cases p q E.
Qed.

Lemma Add_range_replace_first s pre rest key newPair :
  Add_range s (pre ++ rest) (length pre) rest key newPair
  = option_map (option_map (app pre)) (replace_first s rest key newPair).
Proof.
  revert pre. induction rest as [|p rest IH]; intros pre; simpl; [done |].
  destruct (compareObjects s (HashPair_Key p) key) as [[]|]; simpl; [| | done].
  - do 2 f_equal. rewrite insert_app_r_alt by lia.
    by replace (length pre - length pre)%nat with 0%nat by lia.
  - replace (pre ++ p :: rest) with ((pre ++ [p]) ++ rest) by by rewrite <- app_assoc.
    replace (S (length pre)) with (length (pre ++ [p])) by (rewrite length_app; simpl; lia).
    rewrite IH. destruct (replace_first s rest key newPair) as [[c|]|]; simpl; try done.
    by rewrite <- app_assoc.
Qed.

Lemma replace_first_found s chain key newPair chain' :
  replace_first s chain key newPair = Some (Some chain') ->
  exists i p, chain !! i = Some p
    /\ compareObjects s (HashPair_Key p) key = Some true
    /\ (forall j q, (j < i)%nat -> chain !! j = Some q ->
          compareObjects s (HashPair_Key q) key = Some false)
    /\ chain' = <[i := newPair]> chain.
Proof.
  revert chain'. induction chain as [|p chain IH]; intros chain'; simpl; [done |].
  destruct (compareObjects s (HashPair_Key p) key) as [[]|] eqn:C; simpl; [| | done].
  - intros [= <-]. exists 0%nat, p. repeat split; try done. intros; lia.
  - destruct (replace_first s chain key newPair) as [[c|]|]; simpl; try done.
    intros [= <-]. destruct (IH c eq_refl) as (i & q & Hi & Hq & Hlt & ->).
    exists (S i), q. repeat split; try done.
    intros [|j] q' Hj; simpl; [by intros [= <-] |].
    apply Hlt. lia.
Qed.

Lemma replace_first_absent s chain key newPair :
  replace_first s chain key newPair = Some None ->
  forall p, p ∈ chain -> compareObjects s (HashPair_Key p) key = Some false.
Proof.
  induction chain as [|q chain IH]; simpl; [by intros _ p ?%elem_of_nil |].
  destruct (compareObjects s (HashPair_Key q) key) as [[]|] eqn:C; simpl; [done | | done].
  destruct (replace_first s chain key newPair) as [[c|]|]; simpl; try done.
  intros _ p [->|?]%elem_of_cons; auto.
Qed.

Lemma replace_first_total s chain key newPair :
  valid s key -> (forall p, p ∈ chain -> valid s (HashPair_Key p)) ->
  is_Some (replace_first s chain key newPair).
Proof.
  intros Vk. induction chain as [|q chain IH]; intros V; simpl; [eauto |].
  destruct (compareObjects_total s (HashPair_Key q) key) as [c ->]; [| done |].
  { apply V. by left. }
  simpl. destruct c; [eauto |].
  destruct IH as [r ->]; [| by eauto].
  intros p ?. apply V. by right.
Qed.

Lemma replace_first_values_eq s s' chain key newPair :
  values_eq s s' ->
  replace_first s' chain key newPair = replace_first s chain key newPair.
Proof.
  intros V. induction chain as [|q chain IH]; simpl; [done |].
  by rewrite (compareObjects_values_eq s s'), IH.
Qed.

Lemma FindPair_own s chain key value r :
  compareObjects s key key = Some true ->
  replace_first s chain key (mkHashPair key value) = Some r ->
  FindPair s (stored chain (mkHashPair key value) r) key
  = Some (Some (mkHashPair key value)).
Proof.
  intros R. revert r. induction chain as [|q chain IH]; intros r; simpl.
  - intros [= <-]. simpl. by rewrite R.
  - destruct (compareObjects s (HashPair_Key q) key) as [[]|] eqn:C; simpl; [| | done].
    + intros [= <-]. simpl. by rewrite R.
    + destruct (replace_first s chain key _) as [r'|] eqn:F; simpl; [| done].
      intros [= <-]. specialize (IH r' eq_refl).
      destruct r' as [c|]; simpl in *; by rewrite C.
Qed.

Lemma FindPair_other s chain key key' value' r found :
  compareObjects s key' key = Some false ->
  FindPair s chain key = Some (Some found) ->
  replace_first s chain key' (mkHashPair key' value') = Some r ->
  FindPair s (stored chain (mkHashPair key' value') r) key = Some (Some found).
Proof.
  intros N. revert r. induction chain as [|q chain IH]; intros r; simpl; [done |].
  destruct (compareObjects s (HashPair_Key q) key) as [c1|] eqn:C1; simpl; [| done].
  destruct (compareObjects s (HashPair_Key q) key') as [c2|] eqn:C2; simpl; [| done].
  destruct c2.
  - intros F [= <-]. simpl. rewrite N. simpl.
    destruct c1; [| done].
    pose proof (compareObjects_join _ _ _ _ C1 C2). congruence.
  - destruct (replace_first s chain key' _) as [r'|] eqn:F'; simpl; [| done].
    intros F [= <-].
    destruct c1.
    + destruct r'; simpl; by rewrite C1.
    + specialize (IH r' F eq_refl). destruct r'; simpl in *; by rewrite C1.
Qed.

(** [Add] with a hashable key, step by step. *)
Lemma Add_inv h key value s s' :
  Add h key value s = Some (None, s') ->
  exists hashKey hk s1 H t r,
    Hashable key = Some hashKey /\ hashKey s = Some (hk, s1)
    /\ hashes s !! h = Some H /\ Hash_Pairs H = Some t
    /\ replace_first s (default [] (t !! hk)) key (mkHashPair key value) = Some r
    /\ s' = set_hash h
         (mkHash (Some (<[hk := stored (default [] (t !! hk)) (mkHashPair key value) r]> t)))
         s1.
Proof.
  unfold Add. destruct (Hashable key) as [hashKey|] eqn:Hk; [| done].
  destruct (hashKey s) as [[hk s1]|] eqn:E; simpl; [| done].
  destruct (HashKey_effect _ _ _ _ _ Hk E) as (V & Hh & _).
  rewrite Hh. destruct (hashes s !! h) as [H|] eqn:EH; simpl; [| done].
  pose proof (Add_range_replace_first s1 [] (default [] (map_index (Hash_Pairs H) hk))
                key (mkHashPair key value)) as AR.
  simpl in AR. rewrite AR. clear AR.
  destruct (replace_first s1 _ key _) as [r|] eqn:F; simpl; [| done].
  destruct (Hash_Pairs H) as [t|] eqn:Et; simpl; [| done].
  intros [= <-]. exists hashKey, hk, s1, H, t, r.
  repeat split; try done.
  - rewrite <- F. simpl. symmetry. by apply replace_first_values_eq.
  - destruct r as [c|]; simpl; [| done].
    done.
Qed.

Lemma HashKey_of_set_hash h X s key : HashKey_of (set_hash h X s) key = HashKey_of s key.
Proof.
  unfold HashKey_of, Hashable. destruct (dyn key); try done.
  - unfold Integer_HashKey. simpl. by destruct (integers s !! ptr key) as [[? [?|]]|].
  - unfold Boolean_HashKey. simpl. by destruct (booleans s !! ptr key) as [[? [?|]]|].
  - unfold String_HashKey. simpl. by destruct (strings s !! ptr key) as [[? [?|]]|].
Qed.

Lemma Add_effect h key value s s' :
  Add h key value s = Some (None, s') ->
  exists hk chain r,
    HashKey_of s key = Some hk /\ Pairs_at s h hk = Some chain
    /\ replace_first s chain key (mkHashPair key value) = Some r
    /\ Pairs_at s' h hk = Some (stored chain (mkHashPair key value) r)
    /\ (forall hk', hk' <> hk -> Pairs_at s' h hk' = Pairs_at s h hk')
    /\ values_eq s s' /\ (forall key', HashKey_of s' key' = HashKey_of s key')
    /\ is_Some (Hashable key) /\ valid s key /\ Hash_ready s h /\ Hash_ready s' h
    /\ (forall o, valid s o <-> valid s' o).
Proof.
  intros A. destruct (Add_inv _ _ _ _ _ A) as (m & hk & s1 & H & t & r & Hm & E & EH & Et & F & ->).
  destruct (HashKey_effect _ _ _ _ _ Hm E) as (V & Hh & _ & _ & Vk & _ & D & Vo).
  exists hk, (default [] (t !! hk)), r.
  unfold Pairs_at, Hash_ready. simpl. rewrite EH, lookup_insert_eq. simpl. rewrite Et. simpl.
  rewrite lookup_insert_eq. simpl.
  repeat split; try done; eauto.
  - unfold HashKey_of. by rewrite Hm, E.
  - intros hk' N. by rewrite lookup_insert_ne.
  - apply V.
  - apply V.
  - apply V.
  - intros key'. by rewrite HashKey_of_set_hash.
  - intros Hv. by apply Vo in Hv.
  - intros Hv. by apply Vo.
Qed.

Lemma Add_error_inv h key value s e s' :
  Add h key value s = Some (Some e, s') ->
  s' = s /\ Hashable key = None /\ e = "unusable as hash key: " +:+ Type_ key.
Proof.
  unfold Add. destruct (Hashable key) as [m|]; [| by intros [= <- <-]].
  destruct (m s) as [[hk s1]|]; simpl; [| done].
  destruct (hashes s1 !! h); simpl; [| done].
  destruct (Add_range _ _ _ _ _ _); simpl; [| done].
  destruct (map_assign _ _ _); simpl; done.
Qed.

(** One more [Add], with a key that does not compare equal to [key],
    leaves what [FindPair] retrieves for [key] as it was. *)
Lemma Add_keeps h key hk chain found key' value' s e s' :
  HashKey_of s key = Some hk -> Pairs_at s h hk = Some chain ->
  FindPair s chain key = Some (Some found) ->
  compareObjects s key' key = Some false ->
  Add h key' value' s = Some (e, s') ->
  HashKey_of s' key = Some hk /\ values_eq s s'
  /\ exists chain', Pairs_at s' h hk = Some chain'
       /\ FindPair s' chain' key = Some (Some found).
Proof.
  intros D P F N A. destruct e as [e|].
  - apply Add_error_inv in A as (-> & _). eauto using values_eq_refl.
  - destruct (Add_effect _ _ _ _ _ A)
      as (hk' & chain0 & r & D' & P' & R & Ps & Po & V & Ds & _).
    rewrite Ds. split; [done |]. split; [done |].
    destruct (decide (hk = hk')) as [<-|Hne].
    + rewrite P in P'. injection P' as <-.
      eexists. split; [exact Ps |].
      rewrite (FindPair_values_eq s s') by done.
      eapply FindPair_other; eassumption.
    + exists chain. rewrite Po by done. split; [done |].
      by rewrite (FindPair_values_eq s s').
Qed.

Lemma Add_all_keeps h key hk found pairs : forall s chain s',
  HashKey_of s key = Some hk -> Pairs_at s h hk = Some chain ->
  FindPair s chain key = Some (Some found) ->
  (forall kv, kv ∈ pairs -> compareObjects s kv.1 key = Some false) ->
  Add_all h pairs s = Some s' ->
  HashKey_of s' key = Some hk
  /\ exists chain', Pairs_at s' h hk = Some chain'
       /\ FindPair s' chain' key = Some (Some found).
Proof.
  induction pairs as [|[k v] pairs IH]; intros s chain s' D P F N; simpl.
  - intros [= <-]. eauto.
  - destruct (Add h k v s) as [[e s1]|] eqn:A; [| done].
    intros R.
    destruct (Add_keeps _ _ _ _ _ _ _ _ _ _ D P F (N (k, v) ltac:(by left)) A)
      as (D1 & V & chain1 & P1 & F1).
    eapply IH; eauto.
    intros kv Hin. rewrite (compareObjects_values_eq s s1) by done.
    apply N. by right.
Qed.

Lemma compareObjects_trans s a b c :
  compareObjects s a b = Some true -> compareObjects s b c = Some true ->
  compareObjects s a c = Some true.
Proof.
  intros Hab Hbc. rewrite compareObjects_sym in Hab.
  exact (compareObjects_join s b c a Hbc Hab).
Qed.

(** *** The invariant of the Hash container *)

Lemma chain_ok_values_eq s s' hk chain :
  values_eq s s' -> (forall o, valid s o <-> valid s' o) ->
  (forall o, HashKey_of s' o = HashKey_of s o) ->
  chain_ok s hk chain -> chain_ok s' hk chain.
Proof.
  intros V Vo D (Hk & Hd). split.
  - intros p Hp. destruct (Hk p Hp) as (? & ?). rewrite D. split; [by apply Vo | done].
  - intros i j p q Hi Hj. rewrite (compareObjects_values_eq s s') by done. eauto.
Qed.

Lemma chain_ok_stored s hk chain key value r :
  chain_ok s hk chain -> valid s key -> HashKey_of s key = Some hk ->
  replace_first s chain key (mkHashPair key value) = Some r ->
  chain_ok s hk (stored chain (mkHashPair key value) r).
Proof.
  intros (Hk & Hd) Vk Dk R. destruct r as [chain'|]; simpl.
  - destruct (replace_first_found _ _ _ _ _ R) as (i & p & Hi & Hp & Hlt & ->).
    assert (i < length chain)%nat as Hlen by (by eapply lookup_lt_Some).
    split.
    + intros q [j Hj]%list_elem_of_lookup.
      destruct (decide (i = j)) as [<-|Hne].
      * rewrite list_lookup_insert_eq in Hj by done. by injection Hj as <-.
      * rewrite list_lookup_insert_ne in Hj by done.
        apply Hk, list_elem_of_lookup. eauto.
    + intros j1 j2 q1 q2 H1 H2 C.
      destruct (decide (i = j1)) as [<-|N1], (decide (i = j2)) as [<-|N2]; try done.
      * rewrite list_lookup_insert_eq in H1 by done. injection H1 as <-.
        rewrite list_lookup_insert_ne in H2 by done. simpl in C.
        apply (Hd i j2 p q2 Hi H2). by eapply compareObjects_trans.
      * rewrite list_lookup_insert_ne in H1 by done.
        rewrite list_lookup_insert_eq in H2 by done. injection H2 as <-. simpl in C.
        symmetry. apply (Hd i j1 p q1 Hi H1).
        rewrite compareObjects_sym in C. by eapply compareObjects_trans.
      * rewrite list_lookup_insert_ne in H1, H2 by done. eauto.
  - pose proof (replace_first_absent _ _ _ _ R) as Habs. split.
    + intros q [Hq | ->%list_elem_of_singleton]%elem_of_app; [by apply Hk | done].
    + intros j1 j2 q1 q2 H1 H2 C.
      apply lookup_app_Some in H1 as [H1 | (L1 & H1)];
        apply lookup_app_Some in H2 as [H2 | (L2 & H2)].
      * eauto.
      * apply list_lookup_singleton_Some in H2 as (_ & <-). simpl in C.
        rewrite Habs in C; [done | apply list_elem_of_lookup; eauto].
      * apply list_lookup_singleton_Some in H1 as (_ & <-). simpl in C.
        rewrite compareObjects_sym, Habs in C; [done | apply list_elem_of_lookup; eauto].
      * apply list_lookup_singleton_Some in H1 as (? & _).
        apply list_lookup_singleton_Some in H2 as (? & _). lia.
Qed.

(** [NewHash] makes a hash that satisfies the invariant. *)
Lemma Hash_ok_NewHash s : Hash_ok (NewHash s).2 (NewHash s).1.
Proof.
  unfold Hash_ok, Hash_ready, Pairs_at, NewHash. simpl. rewrite lookup_insert_eq. split.
  - eauto.
  - simpl. intros hk chain [= <-]. rewrite lookup_empty. simpl.
    split; [by intros p ?%elem_of_nil | intros i j p q Hi; by rewrite lookup_nil in Hi].
Qed.

(** [Add] on [h] keeps the invariant of every hash. *)
Lemma Hash_ok_Add h key value s e s' h' :
  Add h key value s = Some (e, s') -> Hash_ok s h' -> Hash_ok s' h'.
Proof.
  intros A Ok. destruct e as [e|].
  { by apply Add_error_inv in A as (-> & _). }
  destruct (Add_inv _ _ _ _ _ A) as (m & hk & s1 & H & t & r & Hm & E & EH & Et & R & Es).
  destruct (Add_effect _ _ _ _ _ A)
    as (hk0 & chain0 & r0 & D & P & R0 & Ps & Po & V & Ds & _ & Vk & _ & _ & Vo).
  assert (hk0 = hk) as ->.
  { unfold HashKey_of in D. rewrite Hm, E in D. by injection D. }
  destruct Ok as ((H' & t' & EH' & Et') & Hc).
  destruct (decide (h = h')) as [<-|Hne].
  - split.
    + subst s'. unfold Hash_ready. simpl. rewrite lookup_insert_eq. eauto.
    + intros hk1 chain1 P1.
      destruct (decide (hk1 = hk)) as [->|Hk1].
      * rewrite Ps in P1. injection P1 as <-.
        apply (chain_ok_values_eq s s'); try done.
        apply chain_ok_stored; try done. by apply Hc.
      * rewrite Po in P1 by done.
        apply (chain_ok_values_eq s s'); try done. by apply Hc.
  - assert (hashes s' !! h' = hashes s !! h') as Eh.
    { subst s'. simpl. rewrite lookup_insert_ne by done.
      by destruct (HashKey_effect _ _ _ _ _ Hm E) as (_ & -> & _). }
    split.
    + unfold Hash_ready. rewrite Eh. eauto.
    + intros hk1 chain1 P1. unfold Pairs_at in P1. rewrite Eh in P1.
      apply (chain_ok_values_eq s s'); try done. by apply Hc.
Qed.

(** *** The Hash container *)

(** C1. [h.Add(k, v)] with a hashable key [k], on a hash whose map is not
    nil and whose chain under [k.HashKey()] holds live keys, returns nil.
    When that chain holds a pair whose key is object-equal to [k], the first
    such pair is overwritten in place with [(k, v)] and every other
    position, and so the length, is as before; when it holds none, [(k, v)]
    is appended at the end.  Chains under other hash keys are as they
    were. *)
Theorem Add_replaces_or_appends h key value s hk chain :
  HashKey_of s key = Some hk ->
  Hash_ready s h ->
  Pairs_at s h hk = Some chain ->
  (forall p, p ∈ chain -> valid s (HashPair_Key p)) ->
  exists s' chain',
    Add h key value s = Some (None, s')
    /\ Pairs_at s' h hk = Some chain'
    /\ ((exists p, p ∈ chain /\ compareObjects s (HashPair_Key p) key = Some true) ->
        length chain' = length chain
        /\ exists i p,
             chain !! i = Some p
             /\ compareObjects s (HashPair_Key p) key = Some true
             /\ (forall j q, (j < i)%nat -> chain !! j = Some q ->
                   compareObjects s (HashPair_Key q) key = Some false)
             /\ chain' = <[i := mkHashPair key value]> chain)
    /\ ((forall p, p ∈ chain -> compareObjects s (HashPair_Key p) key = Some false) ->
        chain' = chain ++ [mkHashPair key value])
    /\ (forall hk', hk' <> hk -> Pairs_at s' h hk' = Pairs_at s h hk').
Proof.
  intros D (H & t & EH & Et) P V.
  unfold HashKey_of in D. destruct (Hashable key) as [m|] eqn:Hm; [| done].
  destruct (m s) as [[hk0 s1]|] eqn:E; simpl in D; [| done]. injection D as ->.
  destruct (HashKey_effect _ _ _ _ _ Hm E) as (Veq & Hh & _ & _ & Vk & _ & _ & _).
  unfold Pairs_at in P. rewrite EH in P. simpl in P. injection P as <-.
  destruct (replace_first_total s (default [] (map_index (Hash_Pairs H) hk)) key
              (mkHashPair key value) Vk V) as [r R].
  assert (A : Add h key value s
              = Some (None, set_hash h
                   (mkHash (Some (<[hk := stored (default [] (map_index (Hash_Pairs H) hk))
                                              (mkHashPair key value) r]> t))) s1)).
  { unfold Add. rewrite Hm, E. simpl. rewrite Hh, EH. simpl.
    pose proof (Add_range_replace_first s1 []
                  (default [] (map_index (Hash_Pairs H) hk)) key
                  (mkHashPair key value)) as AR.
    simpl in AR. rewrite AR, (replace_first_values_eq s s1), R by done.
    rewrite Et. simpl. by destruct r. }
  destruct (Add_effect _ _ _ _ _ A) as (hk' & chain0 & r' & D' & P' & R' & Ps & Po & _).
  assert (hk' = hk) as ->.
  { unfold HashKey_of in D'. rewrite Hm, E in D'. by injection D'. }
  assert (chain0 = default [] (map_index (Hash_Pairs H) hk)) as ->.
  { unfold Pairs_at in P'. rewrite EH in P'. by injection P'. }
  rewrite R in R'. injection R' as <-.
  eexists _, _. split; [exact A |]. split; [exact Ps |].
  split; [| split; [| exact Po]].
  - intros (p & Hin & Hp). destruct r as [c|]; simpl.
    + destruct (replace_first_found _ _ _ _ _ R) as (i & q & Hi & Hq & Hlt & ->).
      split; [by rewrite length_insert |]. eauto 10.
    + pose proof (replace_first_absent _ _ _ _ R p Hin). congruence.
  - intros Hall. destruct r as [c|]; simpl; [| done].
    destruct (replace_first_found _ _ _ _ _ R) as (i & q & Hi & Hq & _).
    assert (q ∈ default [] (map_index (Hash_Pairs H) hk)) as Hin
      by (apply list_elem_of_lookup; eauto).
    specialize (Hall q Hin). congruence.
Qed.

Lemma Add_FindPair_roundtrip_aux h key value s s' :
  Add h key value s = Some (None, s') ->
  exists hk chain,
    HashKey_of s' key = Some hk
    /\ Pairs_at s' h hk = Some chain
    /\ FindPair s' chain key = Some (Some (mkHashPair key value)).
Proof.
  intros A.
  destruct (Add_effect _ _ _ _ _ A)
    as (hk & chain & r & D & P & R & Ps & _ & V & Ds & Hk & Vk & _).
  exists hk, (stored chain (mkHashPair key value) r).
  rewrite Ds. split; [done |]. split; [done |].
  rewrite (FindPair_values_eq s s') by done.
  apply FindPair_own; [| done]. by apply compareObjects_refl.
Qed.

(** C3. Round trip: once [h.Add(k, v)] has returned nil, [FindPair(k)] on
    the chain [h.Pairs[k.HashKey()]] finds the pair [(k, v)], whose [Value]
    is exactly [v]; and after any further run of [Add] calls on [h] whose
    keys do not compare equal to [k], [FindPair(k)] on that chain still
    finds the same pair. *)
Theorem Add_FindPair_roundtrip h key value s s' :
  Add h key value s = Some (None, s') ->
  exists hk chain,
    HashKey_of s' key = Some hk
    /\ Pairs_at s' h hk = Some chain
    /\ FindPair s' chain key = Some (Some (mkHashPair key value))
    /\ forall later s'',
         (forall kv, kv ∈ later -> compareObjects s' kv.1 key = Some false) ->
         Add_all h later s' = Some s'' ->
         HashKey_of s'' key = Some hk
         /\ exists chain'',
              Pairs_at s'' h hk = Some chain''
              /\ FindPair s'' chain'' key = Some (Some (mkHashPair key value)).
Proof.
  intros A.
  destruct (Add_FindPair_roundtrip_aux _ _ _ _ _ A) as (hk & chain & D & P & F).
  exists hk, chain. do 3 (split; [done |]).
  intros later s'' N R. by eapply Add_all_keeps.
Qed.

(** C4. A key that is not an Integer, a Boolean or a String is refused:
    [Add] returns the error naming the key's type and the store, hence every
    chain of every hash, is exactly as before.  The receiver is not even
    dereferenced. *)
Theorem Add_unhashable_key h key value s :
  dyn key <> PInteger -> dyn key <> PBoolean -> dyn key <> PString ->
  Add h key value s = Some (Some ("unusable as hash key: " +:+ Type_ key), s).
Proof.
  intros NI NB NS. unfold Add, Hashable. by destruct (dyn key).
Qed.

(** *** Hash keys *)

Lemma HashKey_of_cached s o :
  HashKey_of s o = match cached s o with Some c => Some c | None => computed s o end.
Proof.
  unfold HashKey_of, cached, computed, Hashable. destruct (dyn o); try done.
  - unfold Integer_HashKey. by destruct (integers s !! ptr o) as [[? [?|]]|].
  - unfold Boolean_HashKey. by destruct (booleans s !! ptr o) as [[? [?|]]|].
  - unfold String_HashKey. by destruct (strings s !! ptr o) as [[? [?|]]|].
Qed.

Lemma HashKey_of_computed s o : cache_ok s o -> HashKey_of s o = computed s o.
Proof.
  rewrite HashKey_of_cached. intros [-> | <-]; [done |]. by destruct (cached s o).
Qed.

Lemma computed_values_eq s s' o : values_eq s s' -> computed s' o = computed s o.
Proof.
  intros (HI & HB & HS). unfold computed. destruct (dyn o); try done.
  all: try (fmap_inv HI (ptr o); simpl; congruence).
  all: try (fmap_inv HB (ptr o); simpl;
            try match goal with X : Boolean_Value _ = _ |- _ => rewrite X end; done).
  all: try (fmap_inv HS (ptr o); simpl; congruence).
Qed.

Lemma computed_Type s o hk : computed s o = Some hk -> HashKey_Type hk = Type_ o.
Proof.
  unfold computed, Type_. destruct (dyn o); try done.
  - destruct (integers s !! ptr o); simpl; [| done]. by intros [= <-].
  - destruct (booleans s !! ptr o); simpl; [| done]. by intros [= <-].
  - destruct (strings s !! ptr o); simpl; [| done]. by intros [= <-].
Qed.

(** Equal values give equal computed keys. *)
Lemma compareObjects_computed s a b :
  compareObjects s a b = Some true -> computed s a = computed s b.
Proof.
  unfold compareObjects, computed, as_String, as_Integer, as_Boolean.
  rewrite Type_eqb. case_bool_decide as E; simpl; [| done].
  rewrite <- E. destruct (dyn a); try done.
  - destruct (integers s !! ptr a), (integers s !! ptr b); simpl; try done.
    by intros [= ->%Z.eqb_eq].
  - destruct (booleans s !! ptr a), (booleans s !! ptr b); simpl; try done.
    by intros [= ->%Bool.eqb_prop].
  - destruct (strings s !! ptr a), (strings s !! ptr b); simpl; try done.
    by intros [= ->%String.eqb_eq].
Qed.

(** After a call of [HashKey] the cache holds what the call returned. *)
Lemma HashKey_caches key hashKey s hk s1 :
  Hashable key = Some hashKey -> hashKey s = Some (hk, s1) ->
  cached s1 key = Some hk
  /\ forall o, cached s1 o = cached s o \/ (o = key /\ cached s o = None /\ computed s o = Some hk).
Proof.
  unfold Hashable, cached, computed. destruct key as [d p]; simpl.
  destruct d; intros [= <-]; simpl.
  - unfold Integer_HashKey. destruct (integers s !! p) as [[v [c|]]|] eqn:E; simpl; [| |done].
    + intros [= <- <-]. rewrite E. eauto.
    + intros [= <- <-]. simpl. rewrite lookup_insert_eq. split; [done |].
      intros [[] q]; simpl; eauto.
      destruct (decide (p = q)) as [<-|?]; [rewrite E | rewrite lookup_insert_ne by done]; eauto.
  - unfold Boolean_HashKey. destruct (booleans s !! p) as [[v [c|]]|] eqn:E; simpl; [| |done].
    + intros [= <- <-]. rewrite E. eauto.
    + intros [= <- <-]. simpl. rewrite lookup_insert_eq. split; [done |].
      intros [[] q]; simpl; eauto.
      destruct (decide (p = q)) as [<-|?]; [rewrite E | rewrite lookup_insert_ne by done]; eauto.
  - unfold String_HashKey. destruct (strings s !! p) as [[v [c|]]|] eqn:E; simpl; [| |done].
    + intros [= <- <-]. rewrite E. eauto.
    + intros [= <- <-]. simpl. rewrite lookup_insert_eq. split; [done |].
      intros [[] q]; simpl; eauto.
      destruct (decide (p = q)) as [<-|?]; [rewrite E | rewrite lookup_insert_ne by done]; eauto.
Qed.

Lemma uint64_cast v :
  - 2 ^ 63 <= v < 2 ^ 63 ->
  uint64 v = (if v <? 0 then v + 2 ^ 64 else v) /\ 0 <= uint64 v < 2 ^ 64.
Proof.
  intros R. unfold uint64. split; [| apply Z.mod_pos_bound; lia].
  destruct (Z.ltb_spec v 0).
  - symmetry. apply (Z.mod_unique _ _ (-1)); lia.
  - apply Z.mod_small. lia.
Qed.

(** Every computed hash key holds a [uint64]. *)
Lemma fnv64a_range s : 0 <= fnv64a s < 2 ^ 64.
Proof.
  unfold fnv64a. assert (R : 0 <= offset64 < 2 ^ 64) by (unfold offset64; lia).
  revert R. generalize offset64.
  induction (String.list_ascii_of_string s) as [|c data IH]; intros h R; simpl; [done |].
  apply IH. apply Z.mod_pos_bound. lia.
Qed.

Lemma computed_range s o hk :
  computed s o = Some hk -> 0 <= HashKey_Value hk < 2 ^ 64.
Proof.
  unfold computed. destruct (dyn o); try done.
  - destruct (integers s !! ptr o); simpl; [| done]. intros [= <-]. simpl.
    apply Z.mod_pos_bound. lia.
  - destruct (booleans s !! ptr o) as [[[] ?]|]; simpl; [| | done]; intros [= <-]; simpl; lia.
  - destruct (strings s !! ptr o); simpl; [| done]. intros [= <-]. simpl.
    apply fnv64a_range.
Qed.

Example fnv64a_empty : fnv64a "" = 0xcbf29ce484222325.
Proof. reflexivity. Qed.

Example fnv64a_a : fnv64a "a" = 0xaf63dc4c8601ec8c.
Proof. reflexivity. Qed.

Example fnv64a_foobar : fnv64a "foobar" = 0x85944171f73967e8.
Proof. reflexivity. Qed.

(** C5. Derivation of hash keys.  Called on an object whose cache is empty
    or holds the key of its current [Value] (every object, as long as
    [Value] is not assigned to once it has been hashed), [HashKey] returns:
    for an
    Integer, [{INTEGER, uint64(Value)}], the two's-complement cast; for a
    Boolean, [{BOOLEAN, 1}] or [{BOOLEAN, 0}]; for a String, [{STRING, FNV-1a
    64 of Value}].  In particular this is what a fresh [NewInteger] or
    [NewString] object answers.  Any successful call leaves the returned key
    in the cache, and the next call returns that same key and leaves the
    store untouched.  No call of [HashKey] or [Add] changes what [HashKey]
    returns for any object. *)
Theorem HashKey_derivation :
  (forall s i I, integers s !! i = Some I -> cache_ok s (mkObject PInteger i) ->
     exists s', Integer_HashKey i s
                = Some (mkHashKey INTEGER_OBJ (Integer_Value I mod 2 ^ 64), s'))
  /\ (forall v, - 2 ^ 63 <= v < 2 ^ 63 ->
        v mod 2 ^ 64 = if v <? 0 then v + 2 ^ 64 else v)
  /\ (forall s b B, booleans s !! b = Some B -> cache_ok s (mkObject PBoolean b) ->
        exists s', Boolean_HashKey b s
                   = Some (mkHashKey BOOLEAN_OBJ (if Boolean_Value B then 1 else 0), s'))
  /\ (forall s p S, strings s !! p = Some S -> cache_ok s (mkObject PString p) ->
        exists s', String_HashKey p s
                   = Some (mkHashKey STRING_OBJ (fnv64a (String_Value S)), s'))
  /\ (forall value s,
        exists s', Integer_HashKey (NewInteger value s).1 (NewInteger value s).2
                   = Some (mkHashKey INTEGER_OBJ (value mod 2 ^ 64), s'))
  /\ (forall value s,
        exists s', String_HashKey (NewString value s).1 (NewString value s).2
                   = Some (mkHashKey STRING_OBJ (fnv64a value), s'))
  /\ (forall key hashKey s hk s1,
        Hashable key = Some hashKey -> hashKey s = Some (hk, s1) ->
        cached s1 key = Some hk /\ hashKey s1 = Some (hk, s1)
        /\ forall key', HashKey_of s1 key' = HashKey_of s key')
  /\ (forall h key value s e s',
        Add h key value s = Some (e, s') ->
        forall key', HashKey_of s' key' = HashKey_of s key').
Proof.
  split; [| split; [| split; [| split; [| split; [| split; [| split]]]]]].
  - intros s i I E [C|C]; unfold cached, computed in C; simpl in C;
      rewrite E in C; simpl in C; unfold Integer_HashKey; rewrite E; simpl; rewrite C; eauto.
  - intros v R. by apply uint64_cast.
  - intros s b B E [C|C]; unfold cached, computed in C; simpl in C;
      rewrite E in C; simpl in C; unfold Boolean_HashKey; rewrite E; simpl; rewrite C; eauto.
  - intros s p S E [C|C]; unfold cached, computed in C; simpl in C;
      rewrite E in C; simpl in C; unfold String_HashKey; rewrite E; simpl; rewrite C; eauto.
  - intros value s. unfold NewInteger, Integer_HashKey. simpl.
    rewrite lookup_insert_eq. simpl. eauto.
  - intros value s. unfold NewString, String_HashKey. simpl.
    rewrite lookup_insert_eq. simpl. eauto.
  - intros key hashKey s hk s1 Hk E.
    destruct (HashKey_effect _ _ _ _ _ Hk E) as (_ & _ & _ & _ & _ & ? & ? & _).
    destruct (HashKey_caches _ _ _ _ _ Hk E) as (? & _). done.
  - intros h key value s [e|] s' A.
    + by apply Add_error_inv in A as (-> & _).
    + by destruct (Add_effect _ _ _ _ _ A) as (_ & _ & _ & _ & _ & _ & _ & _ & _ & ? & _).
Qed.

(** C10. Hash-equality consistency: when [compareObjects(a, b)] is true and
    neither cache is stale (no [Value] was assigned to after its key was
    computed: hashed objects are immutable), [a.HashKey()] followed by
    [b.HashKey()] both succeed and return the same hash key. *)
Theorem compareObjects_HashKey_eq s a b :
  cache_ok s a -> cache_ok s b ->
  compareObjects s a b = Some true ->
  exists hashKey_a hashKey_b hk s1 s2,
    Hashable a = Some hashKey_a /\ Hashable b = Some hashKey_b
    /\ hashKey_a s = Some (hk, s1) /\ hashKey_b s1 = Some (hk, s2).
Proof.
  intros Ca Cb C.
  destruct (compareObjects_true_valid _ _ _ C) as ([ma Ha] & [mb Hb] & Va & Vb & _).
  pose proof (HashKey_of_computed _ _ Ca) as Da.
  pose proof (HashKey_of_computed _ _ Cb) as Db.
  rewrite (compareObjects_computed _ _ _ C) in Da.
  assert (exists hk, computed s b = Some hk) as [hk Hc].
  { unfold computed, valid, Hashable in *.
    destruct (dyn b); try done; destruct Vb as [x ->]; simpl; eauto. }
  rewrite Hc in Da, Db.
  unfold HashKey_of in Da. rewrite Ha in Da.
  destruct (ma s) as [[hk' s1]|] eqn:Ea; simpl in Da; [| done]. injection Da as ->.
  destruct (HashKey_effect _ _ _ _ _ Ha Ea) as (_ & _ & _ & _ & _ & _ & Ds & _).
  rewrite <- Ds in Db. unfold HashKey_of in Db. rewrite Hb in Db.
  destruct (mb s1) as [[hk' s2]|] eqn:Eb; simpl in Db; [| done]. injection Db as ->.
  by exists ma, mb, hk, s1, s2.
Qed.

(** The invariant [caches_ok] holds when the package is loaded and is kept
    by every function of the package modelled here. *)
Lemma caches_ok_init : caches_ok init.
Proof.
  intros [d p]. left. unfold cached, init. simpl.
  destruct d; try done.
  destruct (decide (p = FALSE)) as [->|?]; [by rewrite lookup_insert_eq |].
  rewrite lookup_insert_ne by done.
  destruct (decide (p = TRUE)) as [->|?]; [by rewrite lookup_insert_eq |].
  by rewrite lookup_insert_ne.
Qed.

Lemma caches_ok_HashKey key hashKey s hk s1 :
  Hashable key = Some hashKey -> hashKey s = Some (hk, s1) ->
  caches_ok s -> caches_ok s1.
Proof.
  intros Hk E Ok o.
  destruct (HashKey_effect _ _ _ _ _ Hk E) as (V & _).
  destruct (HashKey_caches _ _ _ _ _ Hk E) as (_ & Hc).
  unfold cache_ok. rewrite (computed_values_eq s s1) by done.
  destruct (Hc o) as [-> | (-> & _ & Hcomp)]; [apply Ok |].
  right. destruct (HashKey_caches _ _ _ _ _ Hk E) as (-> & _). done.
Qed.

Lemma caches_ok_Add h key value s e s' :
  Add h key value s = Some (e, s') -> caches_ok s -> caches_ok s'.
Proof.
  intros A Ok. destruct e as [e|].
  - by apply Add_error_inv in A as (-> & _).
  - destruct (Add_inv _ _ _ _ _ A) as (m & hk & s1 & H & t & r & Hm & E & _ & _ & _ & ->).
    pose proof (caches_ok_HashKey _ _ _ _ _ Hm E Ok) as Ok1.
    intros o. exact (Ok1 o).
Qed.

Lemma caches_ok_NewInteger value s : caches_ok s -> caches_ok (NewInteger value s).2.
Proof.
  intros Ok [d p]. specialize (Ok (mkObject d p)).
  unfold cache_ok, cached, computed, NewInteger in *. simpl in *.
  destruct d; try done.
  destruct (decide (next s = p)) as [<-|?];
    [rewrite !lookup_insert_eq; by left | by rewrite !lookup_insert_ne].
Qed.

Lemma caches_ok_NewString value s : caches_ok s -> caches_ok (NewString value s).2.
Proof.
  intros Ok [d p]. specialize (Ok (mkObject d p)).
  unfold cache_ok, cached, computed, NewString in *. simpl in *.
  destruct d; try done.
  destruct (decide (next s = p)) as [<-|?];
    [rewrite !lookup_insert_eq; by left | by rewrite !lookup_insert_ne].
Qed.

Lemma caches_ok_NewHash s : caches_ok s -> caches_ok (NewHash s).2.
Proof. intros Ok o. exact (Ok o). Qed.

Lemma caches_ok_NewEnvironment s : caches_ok s -> caches_ok (NewEnvironment s).2.
Proof. intros Ok o. exact (Ok o). Qed.

(** C2. Collision safety: after [h.Add(k1, v1)] and [h.Add(k2, v2)] with keys
    that do not compare equal, [FindPair(k1)] on the chain under
    [k1.HashKey()] finds [(k1, v1)] and [FindPair(k2)] on the chain under
    [k2.HashKey()] finds [(k2, v2)]; when the two hash keys are equal this is
    one shared chain that holds both.  Objects of different dynamic types
    never compare equal, and their hash keys, when no cache is stale, differ
    in the [Type] field whatever the two [Value] fields are. *)
Theorem Add_collision_safe h k1 v1 k2 v2 s s1 s2 :
  compareObjects s k1 k2 = Some false ->
  Add h k1 v1 s = Some (None, s1) ->
  Add h k2 v2 s1 = Some (None, s2) ->
  (exists hk1 hk2 chain1 chain2,
     HashKey_of s2 k1 = Some hk1 /\ HashKey_of s2 k2 = Some hk2
     /\ Pairs_at s2 h hk1 = Some chain1 /\ Pairs_at s2 h hk2 = Some chain2
     /\ FindPair s2 chain1 k1 = Some (Some (mkHashPair k1 v1))
     /\ FindPair s2 chain2 k2 = Some (Some (mkHashPair k2 v2))
     /\ (hk1 = hk2 -> chain1 = chain2))
  /\ (forall st a b, dyn a <> dyn b -> compareObjects st a b = Some false)
  /\ (forall st a b ha hb,
        dyn a <> dyn b -> cache_ok st a -> cache_ok st b ->
        HashKey_of st a = Some ha -> HashKey_of st b = Some hb ->
        HashKey_Type ha <> HashKey_Type hb).
Proof.
  intros N A1 A2. split; [| split].
  - destruct (Add_FindPair_roundtrip_aux h k1 v1 s s1 A1) as (hk1 & c1 & D1 & P1 & F1).
    destruct (Add_effect _ _ _ _ _ A1) as (_ & _ & _ & _ & _ & _ & _ & _ & V1 & _).
    assert (N1 : compareObjects s1 k2 k1 = Some false).
    { by rewrite compareObjects_sym, (compareObjects_values_eq s s1). }
    destruct (Add_keeps _ _ _ _ _ _ _ _ _ _ D1 P1 F1 N1 A2) as (D1' & _ & c1' & P1' & F1').
    destruct (Add_FindPair_roundtrip_aux h k2 v2 s1 s2 A2) as (hk2 & c2 & D2 & P2 & F2).
    exists hk1, hk2, c1', c2. repeat split; try done.
    intros <-. congruence.
  - intros st a b Hd. unfold compareObjects.
    rewrite Type_eqb, bool_decide_eq_false_2 by done. done.
  - intros st a b ha hb Hd Ca Cb Da Db.
    rewrite (HashKey_of_computed _ _ Ca) in Da. rewrite (HashKey_of_computed _ _ Cb) in Db.
    rewrite (computed_Type _ _ _ Da), (computed_Type _ _ _ Db).
    intros T. by apply Hd, Type_inj.
Qed.

(* ===================================================================== *)
(** ** Properties of package [repl] *)
(* ===================================================================== *)

Section Session.

Context {Program : Type}.
Variable parse : string -> Program * list string.
Variable eval : Program -> loc -> State -> option (option Object * State).
Variable inspect : Object -> State -> string.

Abbreviation Event := (repl.Event Program).
Abbreviation World := (repl.World Program).
Abbreviation handle := (repl.handle Program parse eval inspect).
Abbreviation outcome := (repl.outcome Program).
Abbreviation Wrote := (repl.Wrote Program).
Abbreviation Scanned := (repl.Scanned Program).
Abbreviation Created := (repl.Created Program).
Abbreviation Parsed := (repl.Parsed Program).
Abbreviation Evaluated := (repl.Evaluated Program).
Abbreviation Inspected := (repl.Inspected Program).
Abbreviation error_lines := repl.error_lines.
Abbreviation shown := (repl.shown Program inspect).
Abbreviation loop_events := (repl.loop_events Program parse eval inspect).
Abbreviation session := (repl.session Program parse eval inspect).
Abbreviation is_Parsed := (repl.is_Parsed Program).
Abbreviation is_Evaluated := (repl.is_Evaluated Program).
Abbreviation is_Created := (repl.is_Created Program).
Abbreviation unread := (repl.unread Program parse eval).
Abbreviation parsed_lines := (repl.parsed_lines Program).
Abbreviation evaluations := (repl.evaluations Program).
Abbreviation threaded := repl.threaded.
Abbreviation loop_shape := (repl.loop_shape Program eval inspect).
Abbreviation is_Scanned := (repl.is_Scanned Program).

Lemma printParserErrors_range_run errors : forall w : World,
  eutt eq (interp_state handle (repl.printParserErrors_range Program errors) w)
    (Ret (repl.mkWorld Program (repl.stdin _ w) (repl.heap _ w)
            (repl.trace _ w
               ++ List.map Wrote (List.map (fun msg => repl.tab +:+ msg +:+ repl.nl) errors)),
          tt)).
Proof.
  induction errors as [|msg errors IH]; intros [i h t]; simpl.
  - rewrite interp_state_ret, app_nil_r. reflexivity.
  - rewrite interp_state_bind, interp_state_trigger. cbn.
    rewrite bind_ret_l. cbn. rewrite IH. cbn.
    rewrite <- app_assoc. reflexivity.
Qed.

Lemma printParserErrors_run errors (w : World) :
  eutt eq (interp_state handle (repl.printParserErrors Program errors) w)
    (Ret (repl.mkWorld Program (repl.stdin _ w) (repl.heap _ w)
            (repl.trace _ w ++ List.map Wrote (error_lines errors)),
          tt)).
Proof.
  destruct w as [i h t]. unfold repl.printParserErrors, repl.error_lines.
  do 3 (rewrite interp_state_bind, interp_state_trigger; cbn; rewrite bind_ret_l; cbn).
  rewrite printParserErrors_range_run. cbn.
  rewrite <- !app_assoc. reflexivity.
Qed.

Lemma omap_Wrote {B} (f : Event -> option B) (texts : list string) :
  (forall text, f (Wrote text) = None) -> omap f (List.map Wrote texts) = [].
Proof. intros H. induction texts as [|t texts IH]; simpl; [done |]. by rewrite H. Qed.

Ltac run_event :=
  rewrite ?bind_bind;
  rewrite interp_state_bind, interp_state_trigger; cbn;
  rewrite bind_ret_l; cbn.

Lemma loop_run env : forall lines s tr,
  eutt eq
    (interp_state handle
       (ITree.iter (fun _ : unit => repl.Start_body Program env) tt)
       (repl.mkWorld Program lines s tr))
    (outcome
       (repl.mkWorld Program (unread env lines s) (loop_events env lines s).1.2
          (tr ++ (loop_events env lines s).1.1),
        (loop_events env lines s).2)).
Proof.
  induction lines as [|line lines IH]; intros s tr.
  - rewrite unfold_iter. unfold repl.Start_body at 1.
    run_event. run_event.
    rewrite bind_ret_l, interp_state_ret. unfold repl.outcome. cbn.
    rewrite <- app_assoc. reflexivity.
  - rewrite unfold_iter. unfold repl.Start_body at 1.
    run_event. run_event.
    rewrite ?bind_bind. rewrite interp_state_bind, interp_state_trigger. cbn.
    destruct (parse line) as [program errors] eqn:Ep. rewrite bind_ret_l. cbn.
    destruct (negb (length errors =? 0)%nat) eqn:El.
    + rewrite bind_bind, interp_state_bind, printParserErrors_run, bind_ret_l. cbn.
      rewrite bind_ret_l, interp_state_tau, tau_eutt, IH.
      destruct (loop_events env lines s) as [[tr' s'] returned]. cbn.
      rewrite <- !app_assoc. reflexivity.
    + rewrite bind_bind, interp_state_bind, interp_state_trigger. cbn.
      destruct (eval program env s) as [[[o|] s1]|] eqn:Ee.
      * rewrite bind_ret_l. cbn.
        run_event. run_event. run_event.
        rewrite bind_ret_l, interp_state_tau, tau_eutt, IH.
        destruct (loop_events env lines s1) as [[tr' s'] returned]. cbn.
        rewrite <- !app_assoc. reflexivity.
      * rewrite bind_ret_l. cbn.
        rewrite bind_ret_l, interp_state_tau, tau_eutt, IH.
        destruct (loop_events env lines s1) as [[tr' s'] returned]. cbn.
        rewrite <- !app_assoc. reflexivity.
      * unfold repl.outcome. cbn. rewrite !bind_vis.
        rewrite <- !app_assoc. cbn.
        apply eqit_Vis. intros [].
Qed.

(** A session on finitely many lines comes down to [session]: it returns
    in that world, or the process ends in it. *)
Lemma Start_run lines s :
  eutt eq (interp_state handle (repl.Start Program) (repl.mkWorld Program lines s []))
    (outcome (session lines s)).
Proof.
  unfold repl.Start, repl.session.
  rewrite interp_state_bind, interp_state_trigger. cbn.
  rewrite bind_ret_l. cbn. rewrite loop_run. cbn.
  destruct (loop_events _ lines _) as [[tr' s'] returned]. reflexivity.
Qed.

Lemma app_split_at (P : Event -> Prop) (l1 l2 pre post : list Event) (x : Event) :
  Forall (fun y => ~ P y) l1 -> P x ->
  l1 ++ l2 = pre ++ x :: post ->
  exists pre', pre = l1 ++ pre' /\ l2 = pre' ++ x :: post.
Proof.
  intros F Px. revert pre. induction F as [|y l1 Hy F IH]; intros pre; simpl.
  - intros ->. by exists pre.
  - destruct pre as [|z pre]; simpl; intros [= -> E].
    + done.
    + destruct (IH _ E) as (pre' & -> & ->). by exists pre'.
Qed.

Lemma Forall_Wrote (P : Event -> Prop) (texts : list string) :
  (forall text, ~ P (Wrote text)) -> Forall (fun y => ~ P y) (List.map Wrote texts).
Proof. intros H. induction texts; simpl; constructor; auto. Qed.

Lemma shown_no (P : Event -> Prop) evaluated s :
  (forall text, ~ P (Wrote text)) -> (forall o text, ~ P (Inspected o text)) ->
  Forall (fun y => ~ P y) (shown evaluated s).
Proof. intros. destruct evaluated; simpl; repeat constructor; auto. Qed.

Ltac no_event := repeat intro; simpl in *; contradiction.

(** One step of [loop_events] on a line, by cases. *)
Lemma loop_events_cons env line lines s :
  let '(program, errors) := parse line in
  (errors <> []
   /\ loop_events env (line :: lines) s
      = ([Wrote repl.PROMPT; Scanned (Some line); Parsed line program errors]
           ++ List.map Wrote (error_lines errors) ++ (loop_events env lines s).1.1,
         (loop_events env lines s).1.2, (loop_events env lines s).2))
  \/ (errors = [] /\ eval program env s = None
      /\ loop_events env (line :: lines) s
         = ([Wrote repl.PROMPT; Scanned (Some line); Parsed line program [];
             Evaluated program env s None], s, false))
  \/ (exists evaluated s1,
        errors = [] /\ eval program env s = Some (evaluated, s1)
        /\ loop_events env (line :: lines) s
           = ([Wrote repl.PROMPT; Scanned (Some line); Parsed line program [];
               Evaluated program env s (Some (evaluated, s1))]
                ++ shown evaluated s1 ++ (loop_events env lines s1).1.1,
              (loop_events env lines s1).1.2, (loop_events env lines s1).2)).
Proof.
  cbn [repl.loop_events]. destruct (parse line) as [program errors].
  destruct errors as [|msg errors]; cbn [length Nat.eqb negb].
  - right. destruct (eval program env s) as [[evaluated s1]|]; [right | left; done].
    exists evaluated, s1. by destruct (loop_events env lines s1) as [[tr s'] returned].
  - left. split; [done |]. by destruct (loop_events env lines s) as [[tr s'] returned].
Qed.

Lemma loop_events_head env lines s :
  exists next tr, (loop_events env lines s).1.1 = Wrote repl.PROMPT :: Scanned next :: tr.
Proof.
  destruct lines as [|line lines]; [simpl; eauto |].
  pose proof (loop_events_cons env line lines s) as H.
  destruct (parse line) as [program errors].
  destruct H as [(_ & ->) | [(_ & _ & ->) | (evaluated & s1 & _ & _ & ->)]];
    cbn [fst app]; eauto.
Qed.

(** After a [Parsed] event: with errors, the error lines are written and
    the loop is at its next prompt; without, the evaluator is called on the
    program just parsed. *)
Lemma loop_events_Parsed env : forall lines s pre line program errors post,
  (loop_events env lines s).1.1 = pre ++ Parsed line program errors :: post ->
  (program, errors) = parse line
  /\ (errors <> [] ->
      exists next post',
        post = List.map Wrote (error_lines errors)
                 ++ Wrote repl.PROMPT :: Scanned next :: post')
  /\ (errors = [] ->
      exists before returned post',
        post = Evaluated program env before returned :: post').
Proof.
  induction lines as [|l lines IH]; intros s pre line program errors post.
  - simpl. destruct pre as [|? [|? [|? ?]]]; done.
  - pose proof (loop_events_cons env l lines s) as H.
    destruct (parse l) as [program' errors'] eqn:Ep.
    destruct H as [(Hne & ->) | [(-> & _ & ->) | (evaluated & s1 & -> & _ & ->)]];
      cbn [fst]; intros E.
    + remember (List.map Wrote (error_lines errors')) as written eqn:Ew in *.
      destruct pre as [|? [|? pre]]; simpl in E; [done | done |].
      injection E as <- <- E.
      destruct pre as [|? pre]; simpl in E.
      * injection E as <- <- <- <-. split; [done |]. split; [| done].
        intros _. destruct (loop_events_head env lines s) as (next & tr' & ->).
        subst written. eauto.
      * injection E as <- E.
        apply (app_split_at is_Parsed) in E as (pre' & -> & E);
          [| subst written; apply Forall_Wrote; no_event | done].
        by apply (IH s pre' line program errors post).
    + destruct pre as [|? [|? pre]]; simpl in E; [done | done |].
      injection E as <- <- E.
      destruct pre as [|? pre]; simpl in E.
      * injection E as <- <- <- <-. split; [done |]. split; [done |]. eauto.
      * injection E as <- E. by destruct pre as [|? [|? ?]].
    + destruct pre as [|? [|? pre]]; simpl in E; [done | done |].
      injection E as <- <- E.
      destruct pre as [|? pre]; simpl in E.
      * injection E as <- <- <- <-. split; [done |]. split; [done |]. eauto.
      * injection E as <- E.
        destruct pre as [|? pre]; simpl in E; [done |].
        injection E as <- E.
        apply (app_split_at is_Parsed) in E as (pre' & -> & E);
          [| apply shown_no; no_event | done].
        by apply (IH s1 pre' line program errors post).
Qed.

(** Every [Evaluated] event comes right after the [Parsed] event of its
    program, that one reported no errors, and the environment is the one
    of the loop. *)
Lemma loop_events_Evaluated env : forall lines s pre program env' before returned post,
  (loop_events env lines s).1.1
  = pre ++ Evaluated program env' before returned :: post ->
  env' = env
  /\ exists pre' line, pre = pre' ++ [Parsed line program []] /\ parse line = (program, []).
Proof.
  induction lines as [|l lines IH]; intros s pre program env' before returned post.
  - simpl. destruct pre as [|? [|? [|? ?]]]; done.
  - pose proof (loop_events_cons env l lines s) as H.
    destruct (parse l) as [program' errors'] eqn:Ep.
    destruct H as [(Hne & ->) | [(-> & _ & ->) | (evaluated & s1 & -> & _ & ->)]];
      cbn [fst]; intros E.
    + remember (List.map Wrote (error_lines errors')) as written eqn:Ew in *.
      apply (app_split_at is_Evaluated
               [Wrote repl.PROMPT; Scanned (Some l); Parsed l program' errors']) in E
        as (pre' & -> & E); [| repeat constructor; no_event | done].
      apply (app_split_at is_Evaluated) in E as (pre'' & -> & E);
        [| subst written; apply Forall_Wrote; no_event | done].
      destruct (IH s pre'' program env' before returned post E) as (-> & p & line & -> & Hl).
      split; [done |].
      exists ([Wrote repl.PROMPT; Scanned (Some l); Parsed l program' errors']
                ++ written ++ p), line.
      by rewrite <- !app_assoc.
    + destruct pre as [|? [|? [|? pre]]]; simpl in E; try done.
      injection E as <- <- <- E.
      destruct pre as [|? pre]; simpl in E; [| by destruct pre].
      injection E as <- <- <- <-. split; [done |].
      by exists [Wrote repl.PROMPT; Scanned (Some l)], l.
    + destruct pre as [|? [|? [|? pre]]]; simpl in E; try done.
      injection E as <- <- <- E.
      destruct pre as [|? pre]; simpl in E.
      * injection E as <- <- <- <-. split; [done |].
        by exists [Wrote repl.PROMPT; Scanned (Some l)], l.
      * injection E as <- E.
        apply (app_split_at is_Evaluated) in E as (pre'' & -> & E);
          [| apply shown_no; no_event | done].
        destruct (IH s1 pre'' program env' before returned post E)
          as (-> & p & line & -> & Hl).
        split; [done |].
        exists ([Wrote repl.PROMPT; Scanned (Some l); Parsed l program' [];
                 Evaluated program' env s (Some (evaluated, s1))]
                  ++ shown evaluated s1 ++ p), line.
        by rewrite <- !app_assoc.
Qed.

(** The events up to a point of the input do not depend on the input that
    follows.  When the loop returns on [lines1], the record for
    [lines1 ++ lines2] is the record for [lines1], less its closing prompt
    and end-of-input scan, followed by the record of the loop going on with
    [lines2]; when the process ends within [lines1], the record is the
    same whatever follows. *)
Lemma loop_events_app env lines2 : forall lines1 s,
  ((loop_events env lines1 s).2 = true ->
   exists tr1,
     (loop_events env lines1 s).1.1 = tr1 ++ [Wrote repl.PROMPT; Scanned None]
     /\ loop_events env (lines1 ++ lines2) s
        = (tr1 ++ (loop_events env lines2 (loop_events env lines1 s).1.2).1.1,
           (loop_events env lines2 (loop_events env lines1 s).1.2).1.2,
           (loop_events env lines2 (loop_events env lines1 s).1.2).2))
  /\ ((loop_events env lines1 s).2 = false ->
      loop_events env (lines1 ++ lines2) s = loop_events env lines1 s).
Proof.
  induction lines1 as [|l lines1 IH]; intros s.
  - split; [| done]. intros _. exists []. simpl.
    by destruct (loop_events env lines2 s) as [[tr s'] returned].
  - rewrite <- app_comm_cons.
    pose proof (loop_events_cons env l lines1 s) as H1.
    pose proof (loop_events_cons env l (lines1 ++ lines2) s) as H2.
    destruct (parse l) as [program errors].
    destruct H1 as [(Hne & ->) | [(-> & He & ->) | (evaluated & s1 & -> & He & ->)]];
      destruct H2 as [(Hne' & ->) | [(? & He' & ->) | (evaluated' & s1' & ? & He' & ->)]];
      try done; try congruence; cbn [fst snd].
    + destruct (IH s) as (IHt & IHf). split.
      * intros R. destruct (IHt R) as (tr1 & E1 & E2). rewrite E2. cbn [fst snd].
        exists ([Wrote repl.PROMPT; Scanned (Some l); Parsed l program errors]
                  ++ List.map Wrote (error_lines errors) ++ tr1).
        rewrite E1. by rewrite <- !app_assoc.
      * intros R. by rewrite (IHf R).
    + rewrite He in He'. injection He' as <- <-.
      destruct (IH s1) as (IHt & IHf). split.
      * intros R. destruct (IHt R) as (tr1 & E1 & E2). rewrite E2. cbn [fst snd].
        exists ([Wrote repl.PROMPT; Scanned (Some l); Parsed l program [];
                 Evaluated program env s (Some (evaluated, s1))]
                  ++ shown evaluated s1 ++ tr1).
        rewrite E1. by rewrite <- !app_assoc.
      * intros R. by rewrite (IHf R).
Qed.

(** The lines that reach the parser are the lines of the input, in order:
    all of them when [Start] returns, a first part otherwise. *)
Lemma loop_events_parsed_lines env : forall lines s,
  parsed_lines (loop_events env lines s).1.1 `prefix_of` lines
  /\ ((loop_events env lines s).2 = true ->
      parsed_lines (loop_events env lines s).1.1 = lines).
Proof.
  unfold repl.parsed_lines.
  induction lines as [|l lines IH]; intros s; [by split |].
  pose proof (loop_events_cons env l lines s) as H.
  destruct (parse l) as [program errors].
  destruct H as [(Hne & ->) | [(-> & _ & ->) | (evaluated & s1 & -> & _ & ->)]];
    cbn [fst snd].
  - destruct (IH s) as (IHp & IHe).
    remember (List.map Wrote (error_lines errors)) as written eqn:Ew.
    rewrite !omap_app. subst written. rewrite omap_Wrote by done. simpl.
    cbn [app]. split; [by apply prefix_cons | intros R; by rewrite IHe].
  - split; [| done]. cbn. by apply prefix_cons, prefix_nil.
  - destruct (IH s1) as (IHp & IHe).
    rewrite !omap_app.
    replace (omap _ (shown evaluated s1)) with (@nil string) by (by destruct evaluated).
    cbn [app]. split; [by apply prefix_cons | intros R; by rewrite IHe].
Qed.

Lemma loop_events_no_Created env : forall lines s,
  Forall (fun e => ~ is_Created e) (loop_events env lines s).1.1.
Proof.
  induction lines as [|l lines IH]; intros s.
  - repeat constructor; no_event.
  - pose proof (loop_events_cons env l lines s) as H.
    destruct (parse l) as [program errors].
    destruct H as [(Hne & ->) | [(-> & _ & ->) | (evaluated & s1 & -> & _ & ->)]];
      cbn [fst].
    + rewrite !Forall_app. split; [repeat constructor; no_event |].
      split; [apply Forall_Wrote; no_event | apply IH].
    + repeat constructor; no_event.
    + rewrite !Forall_app. split; [repeat constructor; no_event |].
      split; [apply shown_no; no_event | apply IH].
Qed.

(** Every call of the evaluator that returns starts in the store the
    previous one left (the first in the store the loop was entered with),
    and the loop ends in the store the last one left. *)
Lemma loop_events_threaded env : forall lines s,
  threaded s (evaluations (loop_events env lines s).1.1) (loop_events env lines s).1.2.
Proof.
  unfold repl.evaluations.
  induction lines as [|l lines IH]; intros s; [done |].
  pose proof (loop_events_cons env l lines s) as H.
  destruct (parse l) as [program errors].
  destruct H as [(Hne & ->) | [(-> & _ & ->) | (evaluated & s1 & -> & _ & ->)]];
    cbn [fst snd].
  - remember (List.map Wrote (error_lines errors)) as written eqn:Ew.
    rewrite !omap_app. subst written. rewrite omap_Wrote by done. simpl.
    apply IH.
  - done.
  - rewrite !omap_app.
    replace (omap _ (shown evaluated s1)) with (@nil (State * State))
      by (by destruct evaluated).
    split; [done | apply IH].
Qed.

(** Every call of the evaluator, returning or not, starts in the store
    the calls before it have left. *)
Lemma loop_events_before env : forall lines s pre program env' before returned post,
  (loop_events env lines s).1.1
  = pre ++ Evaluated program env' before returned :: post ->
  threaded s (evaluations pre) before.
Proof.
  unfold repl.evaluations.
  induction lines as [|l lines IH]; intros s pre program env' before returned post.
  - simpl. destruct pre as [|? [|? [|? ?]]]; done.
  - pose proof (loop_events_cons env l lines s) as H.
    destruct (parse l) as [program' errors'] eqn:Ep.
    destruct H as [(Hne & ->) | [(-> & _ & ->) | (evaluated & s1 & -> & _ & ->)]];
      cbn [fst]; intros E.
    + remember (List.map Wrote (error_lines errors')) as written eqn:Ew in *.
      apply (app_split_at is_Evaluated
               [Wrote repl.PROMPT; Scanned (Some l); Parsed l program' errors']) in E
        as (pre' & -> & E); [| repeat constructor; no_event | done].
      apply (app_split_at is_Evaluated) in E as (pre'' & -> & E);
        [| subst written; apply Forall_Wrote; no_event | done].
      rewrite !omap_app. subst written. rewrite omap_Wrote by done. simpl.
      by eapply IH.
    + destruct pre as [|? [|? [|? pre]]]; simpl in E; try done.
      injection E as <- <- <- E.
      destruct pre as [|? pre]; simpl in E; [| by destruct pre].
      by injection E as <- <- <- <-.
    + destruct pre as [|? [|? [|? pre]]]; simpl in E; try done.
      injection E as <- <- <- E.
      destruct pre as [|? pre]; simpl in E.
      * by injection E as <- <- <- <-.
      * injection E as <- E.
        apply (app_split_at is_Evaluated) in E as (pre'' & -> & E);
          [| apply shown_no; no_event | done].
        simpl. rewrite omap_app.
        replace (omap _ (shown evaluated s1)) with (@nil (State * State))
          by (by destruct evaluated).
        split; [done |]. by eapply IH.
Qed.

(** In a threaded run, an evaluation starts in the very store the one
    before it ended in: whatever [Get] found there, it still finds. *)
Lemma threaded_adjacent evals : forall s final pre before1 after1 before2 after2 post,
  threaded s evals final ->
  evals = pre ++ (before1, after1) :: (before2, after2) :: post ->
  before2 = after1
  /\ forall fuel env name, Get fuel before2 env name = Get fuel after1 env name.
Proof.
  induction evals as [|[b a] evals IH];
    intros s final pre before1 after1 before2 after2 post T E.
  - by destruct pre.
  - destruct T as (-> & T). destruct pre as [|x pre]; simpl in E.
    + injection E as ? ? E. subst. by destruct T as (-> & _).
    + injection E as ? E. by eapply IH.
Qed.

Lemma session_trace lines s :
  repl.trace _ (session lines s).1
  = Created (object.NewEnvironment s).1 (object.NewEnvironment s).2
      :: (loop_events (object.NewEnvironment s).1 lines (object.NewEnvironment s).2).1.1
  /\ repl.heap _ (session lines s).1
     = (loop_events (object.NewEnvironment s).1 lines (object.NewEnvironment s).2).1.2
  /\ (session lines s).2
     = (loop_events (object.NewEnvironment s).1 lines (object.NewEnvironment s).2).2.
Proof.
  unfold repl.session. destruct (object.NewEnvironment s) as [env s0]. simpl.
  by destruct (loop_events env lines s0) as [[tr s'] returned].
Qed.

(** C8. A session on the input [lines] comes down to [session]: [Start]
    returns in that world, or the process ends in it because the evaluator
    did not return.  In its record of events: the lines parsed are the
    lines of the input in order, all of them when [Start] returns; a
    [Parsed] event that carries errors is followed by exactly the writes of
    [printParserErrors] (the banner and then each error string in order),
    then by the next prompt and scan, with no call of the evaluator in
    between; a [Parsed] event without errors is followed by the call of the
    evaluator on its program; and every call of the evaluator comes right
    after the [Parsed] event of its program, whose error list is empty. *)
Theorem Start_skips_evaluation_on_errors lines s :
  eutt eq (interp_state handle (repl.Start Program) (repl.mkWorld Program lines s []))
    (outcome (session lines s))
  /\ parsed_lines (repl.trace _ (session lines s).1) `prefix_of` lines
  /\ ((session lines s).2 = true ->
      parsed_lines (repl.trace _ (session lines s).1) = lines)
  /\ (forall pre line program errors post,
        repl.trace _ (session lines s).1 = pre ++ Parsed line program errors :: post ->
        (program, errors) = parse line
        /\ (errors <> [] ->
            exists next post',
              post = List.map Wrote (error_lines errors)
                       ++ Wrote repl.PROMPT :: Scanned next :: post')
        /\ (errors = [] ->
            exists env before returned post',
              post = Evaluated program env before returned :: post'))
  /\ (forall pre program env before returned post,
        repl.trace _ (session lines s).1
        = pre ++ Evaluated program env before returned :: post ->
        exists pre' line,
          pre = pre' ++ [Parsed line program []] /\ parse line = (program, [])).
Proof.
  split; [apply Start_run |].
  destruct (session_trace lines s) as (-> & _ & ->).
  set (env := (object.NewEnvironment s).1). set (s0 := (object.NewEnvironment s).2).
  destruct (loop_events_parsed_lines env lines s0) as (Hpre & Hall).
  split; [done |]. split; [done |]. split.
  - intros pre line program errors post E.
    destruct pre as [|e pre]; simpl in E; [done |]. injection E as <- E.
    destruct (loop_events_Parsed env _ _ _ _ _ _ _ E) as (Hp & He & Hn).
    split; [done |]. split; [done |].
    intros Hnil. destruct (Hn Hnil) as (b & r & post' & ->). eauto 10.
  - intros pre program env' before returned post E.
    destruct pre as [|e pre]; simpl in E; [done |]. injection E as <- E.
    destruct (loop_events_Evaluated env _ _ _ _ _ _ _ _ E) as (_ & pre' & line & -> & Hl).
    exists (Created env s0 :: pre'), line. done.
Qed.

(** C9. A session creates its root environment once, before the first
    prompt: the first event is the one call of [NewEnvironment], which
    leaves an environment with an empty store and no outer environment.
    Every call of the evaluator receives that same pointer, and starts in
    the store the previous call left (the first one in the store after
    [NewEnvironment]), so what earlier inputs bound is there for later
    ones. *)
Theorem Start_one_environment lines s :
  eutt eq (interp_state handle (repl.Start Program) (repl.mkWorld Program lines s []))
    (outcome (session lines s))
  /\ exists env s0 tr,
       repl.trace _ (session lines s).1 = Created env s0 :: tr
       /\ object.NewEnvironment s = (env, s0)
       /\ environments s0 !! env = Some (mkEnvironment (Some ∅) None)
       /\ Forall (fun e => ~ is_Created e) tr
       /\ (forall pre program env' before returned post,
             tr = pre ++ Evaluated program env' before returned :: post ->
             env' = env)
       /\ threaded s0 (evaluations tr) (repl.heap _ (session lines s).1)
       /\ (forall pre program env' before returned post,
             tr = pre ++ Evaluated program env' before returned :: post ->
             threaded s0 (evaluations pre) before).
Proof.
  split; [apply Start_run |].
  destruct (session_trace lines s) as (-> & -> & _).
  exists (object.NewEnvironment s).1, (object.NewEnvironment s).2,
    (loop_events (object.NewEnvironment s).1 lines (object.NewEnvironment s).2).1.1.
  split; [done |]. split; [by destruct (object.NewEnvironment s) |]. split.
  { unfold object.NewEnvironment. simpl. by rewrite lookup_insert_eq. }
  split; [apply loop_events_no_Created |].
  split; [| split; [apply loop_events_threaded |]].
  - intros pre program env' before returned post E.
    by apply loop_events_Evaluated in E as (-> & _).
  - intros pre program env' before returned post E.
    by eapply loop_events_before.
Qed.

(** *** Further properties of the loop *)

Lemma loop_events_shape env : forall lines s, loop_shape env (loop_events env lines s).1.1.
Proof.
  induction lines as [|l lines IH]; intros s; [constructor |].
  pose proof (loop_events_cons env l lines s) as H.
  destruct (parse l) as [program errors].
  destruct H as [(Hne & ->) | [(-> & He & ->) | (evaluated & s1 & -> & He & ->)]];
    cbn [fst].
  - by apply repl.shape_errors.
  - by apply repl.shape_stuck.
  - by apply repl.shape_evaluated.
Qed.


(** Around a scan: the prompt was written just before; a line is handed
    to the parser next; the end of the input ends the record. *)
Lemma loop_shape_Scanned env tr :
  loop_shape env tr ->
  forall pre scanned post, tr = pre ++ Scanned scanned :: post ->
  (exists pre', pre = pre' ++ [Wrote repl.PROMPT])
  /\ match scanned with
     | Some line => exists program errors post', post = Parsed line program errors :: post'
     | None => post = []
     end.
Proof.
  induction 1 as [ | line program before He | line program errors tr Hne Hs IH
                 | line program before evaluated after tr He Hs IH];
    intros pre scanned post E.
  - destruct pre as [|? [|? pre]]; simpl in E; [done | | by destruct pre].
    injection E as <- <- <-. split; [by exists [] | done].
  - destruct pre as [|? [|? pre]]; simpl in E; [done | | by destruct pre as [|? [|? [|? ?]]]].
    injection E as <- <- <-. split; [by exists [] | eauto].
  - remember (List.map Wrote (error_lines errors)) as written eqn:Ew.
    destruct pre as [|? [|? pre]]; simpl in E; [done | |].
    + injection E as <- <- <-. split; [by exists [] | eauto].
    + injection E as <- <- E. destruct pre as [|? pre]; simpl in E; [done |].
      injection E as <- E.
      apply (app_split_at is_Scanned) in E as (pre' & -> & E);
        [| subst written; apply Forall_Wrote; no_event | done].
      destruct (IH _ _ _ E) as ((p & ->) & Hpost). split; [| done].
      exists (Wrote repl.PROMPT :: Scanned (Some line) :: Parsed line program errors
                :: written ++ p).
      simpl. by rewrite app_assoc.
  - destruct pre as [|? [|? pre]]; simpl in E; [done | |].
    + injection E as <- <- <-. split; [by exists [] | eauto].
    + injection E as <- <- E. destruct pre as [|? [|? pre]]; simpl in E; [done | done |].
      injection E as <- <- E.
      apply (app_split_at is_Scanned) in E as (pre' & -> & E);
        [| apply shown_no; no_event | done].
      destruct (IH _ _ _ E) as ((p & ->) & Hpost). split; [| done].
      exists (Wrote repl.PROMPT :: Scanned (Some line) :: Parsed line program []
                :: Evaluated program env before (Some (evaluated, after))
                :: shown evaluated after ++ p).
      simpl. by rewrite app_assoc.
Qed.


(** X16. The prompt comes before every read: in the record of a session,
    each scan is immediately preceded by the write of the prompt; a scan
    that yields a line is immediately followed by the parse of that very
    line; and the scan that reports the end of the input is the last
    event, so nothing is written after it. *)
Theorem Start_prompts_before_scans lines s pre scanned post :
  repl.trace _ (session lines s).1 = pre ++ Scanned scanned :: post ->
  (exists pre', pre = pre' ++ [Wrote repl.PROMPT])
  /\ match scanned with
     | Some line => exists program errors post', post = Parsed line program errors :: post'
     | None => post = []
     end.
Proof.
  destruct (session_trace lines s) as (-> & _ & _). intros E.
  destruct pre as [|e pre]; simpl in E; [done |]. injection E as <- E.
  destruct (loop_shape_Scanned _ _ (loop_events_shape _ lines _) _ _ _ E)
    as ((p & ->) & Hpost).
  split; [| done]. by eexists (_ :: p).
Qed.




(** X19. What the shell has done so far does not depend on the input still
    to come.  When the session on [lines1] returns, the record of the
    session on [lines1 ++ lines2] is that record, less its closing prompt
    and scan, followed by the events of the loop going on with [lines2]
    from the store reached; when the evaluator does not return within
    [lines1], the record is the same whatever follows. *)
Theorem session_prefix lines1 lines2 s :
  ((session lines1 s).2 = true ->
   exists tr1,
     repl.trace _ (session lines1 s).1 = tr1 ++ [Wrote repl.PROMPT; Scanned None]
     /\ repl.trace _ (session (lines1 ++ lines2) s).1
        = tr1 ++ (loop_events (object.NewEnvironment s).1 lines2
                    (repl.heap _ (session lines1 s).1)).1.1)
  /\ ((session lines1 s).2 = false ->
      repl.trace _ (session (lines1 ++ lines2) s).1 = repl.trace _ (session lines1 s).1
      /\ repl.heap _ (session (lines1 ++ lines2) s).1 = repl.heap _ (session lines1 s).1
      /\ (session (lines1 ++ lines2) s).2 = false).
Proof.
  destruct (session_trace lines1 s) as (-> & -> & ->).
  destruct (session_trace (lines1 ++ lines2) s) as (-> & -> & ->).
  destruct (loop_events_app (object.NewEnvironment s).1 lines2 lines1
              (object.NewEnvironment s).2) as (Ht & Hf).
  split.
  - intros R. destruct (Ht R) as (tr1 & E1 & E2).
    exists (Created (object.NewEnvironment s).1 (object.NewEnvironment s).2 :: tr1).
    rewrite E1, E2. done.
  - intros R. by rewrite (Hf R).
Qed.

End Session.

(* ===================================================================== *)
(** ** Environments and the Boolean singletons *)
(* ===================================================================== *)

(** Under [envs_ok] every environment has a chain, so [Get] returns. *)
Lemma envs_ok_chain s :
  envs_ok s -> forall e, is_Some (environments s !! e) -> exists chain, env_chain s e chain.
Proof.
  intros Ok.
  assert (forall n e, (Pos.to_nat e < n)%nat -> is_Some (environments s !! e) ->
                      exists chain, env_chain s e chain) as H.
  { induction n as [|n IH]; intros e Hn [E He]; [lia |].
    destruct (Environment_outer E) as [outer|] eqn:Ho.
    - destruct (Ok e E He) as (_ & Hout). destruct (Hout outer Ho) as (Hlt & Hs).
      destruct (IH outer ltac:(lia) Hs) as [chain Hc].
      exists (E :: chain). by eapply env_chain_outer.
    - exists [E]. by apply env_chain_root. }
  intros e. apply (H (S (Pos.to_nat e))). lia.
Qed.

Lemma envs_ok_init : envs_ok init.
Proof. intros e E. unfold init. simpl. by rewrite lookup_empty. Qed.

Lemma envs_ok_NewEnvironment s : envs_ok s -> envs_ok (NewEnvironment s).2.
Proof.
  intros Ok e E. unfold NewEnvironment. simpl.
  destruct (decide (next s = e)) as [<-|Hne].
  - rewrite lookup_insert_eq. intros [= <-]. simpl. split; [lia | done].
  - rewrite lookup_insert_ne by done. intros He.
    destruct (Ok e E He) as (Hlt & Hout). split; [lia |].
    intros outer Ho. destruct (Hout outer Ho) as (Hlo & Hs). split; [done |].
    rewrite lookup_insert_ne by lia. done.
Qed.

Lemma envs_ok_NewClosedEnvironment outer s :
  envs_ok s ->
  (forall o, outer = Some o -> is_Some (environments s !! o)) ->
  envs_ok (NewClosedEnvironment outer s).2
  /\ environments (NewClosedEnvironment outer s).2 !! (NewClosedEnvironment outer s).1
     = Some (mkEnvironment (Some ∅) outer).
Proof.
  intros Ok Hvalid. unfold NewClosedEnvironment, NewEnvironment. simpl.
  rewrite lookup_insert_eq. simpl. rewrite lookup_insert_eq. split; [| done].
  intros e E. simpl. rewrite insert_insert_eq.
  destruct (decide (next s = e)) as [<-|Hne].
  - rewrite lookup_insert_eq. intros [= <-]. simpl. split; [lia |].
    intros o ->. destruct (Hvalid o eq_refl) as [Eo Ho].
    destruct (Ok o Eo Ho) as (Hlt & _). split; [done |].
    rewrite lookup_insert_ne by lia. eauto.
  - rewrite lookup_insert_ne by done. intros He.
    destruct (Ok e E He) as (Hlt & Hout). split; [lia |].
    intros o Ho. destruct (Hout o Ho) as (Hlo & Hs). split; [done |].
    rewrite lookup_insert_ne by lia. done.
Qed.

Lemma envs_ok_Set e name val s r s' :
  Set_ e name val s = Some (r, s') -> envs_ok s -> envs_ok s'.
Proof.
  unfold Set_. destruct (environments s !! e) as [E0|] eqn:He0; simpl; [| done].
  destruct (map_assign _ _ _) as [store'|]; simpl; [| done].
  intros [= <- <-] Ok e' E'. simpl.
  destruct (decide (e = e')) as [<-|Hne].
  - rewrite lookup_insert_eq. intros [= <-]. simpl.
    destruct (Ok e E0 He0) as (Hlt & Hout). split; [done |].
    intros o Ho. destruct (Hout o Ho) as (Hlo & Hs). split; [done |].
    rewrite lookup_insert_ne by lia. done.
  - rewrite lookup_insert_ne by done. intros He.
    destruct (Ok e' E' He) as (Hlt & Hout). split; [done |].
    intros o Ho. destruct (Hout o Ho) as (Hlo & Hs). split; [done |].
    destruct (decide (e = o)) as [<-|?]; [rewrite lookup_insert_eq; eauto |].
    by rewrite lookup_insert_ne.
Qed.

(** C6. [e.Get(name)], given at least as much fuel as the chain of [e] is
    long, returns; it yields [v] exactly when some environment of the chain
    binds [name] to [v] and no environment before it (further in) binds
    [name], and it yields not-found exactly when no environment of the
    chain binds [name]. *)
Theorem Get_innermost s e chain name fuel :
  env_chain s e chain ->
  (length chain <= fuel)%nat ->
  exists found,
    Get fuel s e name = Some found
    /\ (forall v, found = Some v <->
          exists i E,
            chain !! i = Some E
            /\ map_index (Environment_store E) name = Some v
            /\ forall j E', (j < i)%nat -> chain !! j = Some E' ->
                 map_index (Environment_store E') name = None)
    /\ (found = None <->
          forall E, E ∈ chain -> map_index (Environment_store E) name = None).
Proof.
  intros C. revert fuel. induction C as [e E He Ho | e E outer chain He Ho C IH];
    intros [|fuel] Hf; simpl in Hf; try lia; simpl; rewrite He; simpl; rewrite Ho.
  - exists (map_index (Environment_store E) name).
    split; [by destruct (map_index _ name) |]. split.
    + intros v. split.
      * intros Hv. exists 0%nat, E. repeat split; try done. intros; lia.
      * intros ([|i] & E' & Hi & Hv & _); simpl in Hi; [by injection Hi as <- | done].
    + split.
      * intros Hn E' ->%list_elem_of_singleton. done.
      * intros Hall. apply Hall. by left.
  - destruct (map_index (Environment_store E) name) as [v0|] eqn:Em.
    + exists (Some v0). split; [done |]. split.
      * intros v. split.
        -- intros [= <-]. exists 0%nat, E. repeat split; try done. intros; lia.
        -- intros ([|i] & E' & Hi & Hv & Hlt); simpl in Hi.
           ++ injection Hi as <-. congruence.
           ++ specialize (Hlt 0%nat E ltac:(lia) eq_refl). congruence.
      * split; [done |]. intros Hall. rewrite Hall in Em; [done | by left].
    + destruct (IH fuel ltac:(lia)) as (found & HG & Hsome & Hnone).
      exists found. split; [done |]. split.
      * intros v. rewrite Hsome. split.
        -- intros (i & E' & Hi & Hv & Hlt). exists (S i), E'. repeat split; try done.
           intros [|j] E'' Hj; simpl; [by intros [= <-] |].
           apply Hlt. lia.
        -- intros ([|i] & E' & Hi & Hv & Hlt); simpl in Hi.
           ++ injection Hi as <-. congruence.
           ++ exists i, E'. repeat split; try done.
              intros j E'' Hj Hl. apply (Hlt (S j)); [lia | done].
      * rewrite Hnone. split.
        -- intros Hall E' [->|Hin]%elem_of_cons; auto.
        -- intros Hall E' Hin. apply Hall. by right.
Qed.

(** C7. [GetBooleanObject(true)] always returns the pointer [TRUE] and
    [GetBooleanObject(false)] the pointer [FALSE], in whatever store it is
    called, and allocates nothing: the store is returned as it was.  The two
    pointers differ and are the only ones handed out, so two calls return
    the same pointer exactly when their inputs are equal.  At start-up
    [TRUE] holds [true] and [FALSE] holds [false], and [HashKey], the one
    function that writes to a Boolean, leaves every [Value] as it is. *)
Theorem GetBooleanObject_singleton :
  (forall s, GetBooleanObject true s = (TRUE, s))
  /\ (forall s, GetBooleanObject false s = (FALSE, s))
  /\ TRUE <> FALSE
  /\ (forall input s, (GetBooleanObject input s).1 = TRUE
                      \/ (GetBooleanObject input s).1 = FALSE)
  /\ (forall input1 input2 s1 s2,
        (GetBooleanObject input1 s1).1 = (GetBooleanObject input2 s2).1
        <-> input1 = input2)
  /\ Boolean_Value <$> booleans init !! TRUE = Some true
  /\ Boolean_Value <$> booleans init !! FALSE = Some false
  /\ (forall key hashKey s hk s1 b,
        Hashable key = Some hashKey -> hashKey s = Some (hk, s1) ->
        Boolean_Value <$> booleans s1 !! b = Boolean_Value <$> booleans s !! b).
Proof.
  split; [done |]. split; [done |]. split; [done |].
  split; [intros [] s; simpl; auto |].
  split; [| split; [done | split; [done |]]].
  - intros input1 input2 s1 s2. split.
    + by destruct input1, input2.
    + intros ->. by destruct input2.
  - intros key hashKey s hk s1 b Hk E.
    destruct (HashKey_effect _ _ _ _ _ Hk E) as ((_ & HB & _) & _). apply HB.
Qed.

(* ===================================================================== *)
(** ** Further properties of the Hash container and of hash keys *)
(* ===================================================================== *)

Lemma FindPair_found_true s chain key found :
  FindPair s chain key = Some (Some found) ->
  found ∈ chain /\ compareObjects s (HashPair_Key found) key = Some true.
Proof.
  induction chain as [|q chain IH]; simpl; [done |].
  destruct (compareObjects s (HashPair_Key q) key) as [[]|] eqn:C; simpl; [| | done].
  - intros [= <-]. split; [by left | done].
  - intros F. destruct (IH F). split; [by right | done].
Qed.

(** An [Add] with a key that does not compare equal to [key] does not make
    [key] appear. *)
Lemma FindPair_other_absent s chain key key' value' r :
  compareObjects s key' key = Some false ->
  FindPair s chain key = Some None ->
  replace_first s chain key' (mkHashPair key' value') = Some r ->
  FindPair s (stored chain (mkHashPair key' value') r) key = Some None.
Proof.
  intros N. revert r. induction chain as [|q chain IH]; intros r; simpl.
  - intros _ [= <-]. simpl. by rewrite N.
  - destruct (compareObjects s (HashPair_Key q) key) as [[]|] eqn:C1; simpl; [done | | done].
    destruct (compareObjects s (HashPair_Key q) key') as [[]|] eqn:C2; simpl; [| | done].
    + intros F [= <-]. simpl. by rewrite N.
    + destruct (replace_first s chain key' _) as [r'|] eqn:F'; simpl; [| done].
      intros F [= <-]. specialize (IH r' F eq_refl).
      destruct r'; simpl in *; by rewrite C1.
Qed.

(** An [Add] with a key that compares equal to [key] overwrites the pair
    found for [key]. *)
Lemma FindPair_updated s chain key key' value' r found :
  compareObjects s key' key = Some true ->
  FindPair s chain key = Some (Some found) ->
  replace_first s chain key' (mkHashPair key' value') = Some r ->
  exists chain', r = Some chain' /\ length chain' = length chain
    /\ FindPair s chain' key = Some (Some (mkHashPair key' value')).
Proof.
  intros T. revert r. induction chain as [|q chain IH]; intros r; simpl; [done |].
  destruct (compareObjects s (HashPair_Key q) key) as [c1|] eqn:C1; simpl; [| done].
  destruct (compareObjects s (HashPair_Key q) key') as [c2|] eqn:C2; simpl; [| done].
  destruct c2.
  - intros _ [= <-]. eexists. split; [done |]. split; [done |]. simpl. by rewrite T.
  - destruct c1.
    + assert (compareObjects s (HashPair_Key q) key' = Some true); [| congruence].
      eapply compareObjects_trans; [exact C1 |]. by rewrite compareObjects_sym.
    + destruct (replace_first s chain key' _) as [r'|] eqn:F'; simpl; [| done].
      intros F [= <-]. destruct (IH r' F eq_refl) as (c & -> & L & F2).
      exists (q :: c). simpl. rewrite C1, L. done.
Qed.

Lemma compareObjects_HashKey_of s a b :
  cache_ok s a -> cache_ok s b -> compareObjects s a b = Some true ->
  HashKey_of s a = HashKey_of s b.
Proof.
  intros Ca Cb C.
  rewrite (HashKey_of_computed _ _ Ca), (HashKey_of_computed _ _ Cb).
  by apply compareObjects_computed.
Qed.

Lemma Add_keeps_absent h key hk chain key' value' s e s' :
  HashKey_of s key = Some hk -> Pairs_at s h hk = Some chain ->
  FindPair s chain key = Some None ->
  compareObjects s key' key = Some false ->
  Add h key' value' s = Some (e, s') ->
  HashKey_of s' key = Some hk /\ values_eq s s'
  /\ exists chain', Pairs_at s' h hk = Some chain'
       /\ FindPair s' chain' key = Some None.
Proof.
  intros D P F N A. destruct e as [e|].
  - apply Add_error_inv in A as (-> & _). eauto using values_eq_refl.
  - destruct (Add_effect _ _ _ _ _ A)
      as (hk' & chain0 & r & D' & P' & R & Ps & Po & V & Ds & _).
    rewrite Ds. split; [done |]. split; [done |].
    destruct (decide (hk = hk')) as [<-|Hne].
    + rewrite P in P'. injection P' as <-.
      eexists. split; [exact Ps |].
      rewrite (FindPair_values_eq s s') by done.
      eapply FindPair_other_absent; eassumption.
    + exists chain. rewrite Po by done. split; [done |].
      by rewrite (FindPair_values_eq s s').
Qed.

Lemma Hash_ok_HashKey key hashKey s hk s1 h :
  Hashable key = Some hashKey -> hashKey s = Some (hk, s1) ->
  Hash_ok s h -> Hash_ok s1 h.
Proof.
  intros Hk E ((H & t & EH & Et) & Hc).
  destruct (HashKey_effect _ _ _ _ _ Hk E) as (V & Hh & _ & _ & _ & _ & D & Vo).
  split.
  - unfold Hash_ready. rewrite Hh. eauto.
  - intros hk1 chain P. unfold Pairs_at in P. rewrite Hh in P.
    apply (chain_ok_values_eq s s1); try done. by apply Hc.
Qed.

Lemma Hash_ok_Add_all h h' pairs : forall s s',
  Hash_ok s h' -> Add_all h pairs s = Some s' -> Hash_ok s' h'.
Proof.
  induction pairs as [|[k v] pairs IH]; intros s s' Ok; simpl.
  - by intros [= <-].
  - destruct (Add h k v s) as [[e s1]|] eqn:A; [| done].
    apply IH. by eapply Hash_ok_Add.
Qed.

(** X1. The representation invariant of a hash: [NewHash] makes a hash
    whose map is not nil and whose chains are all empty, and any run of
    [Add] calls on any hash, and any call of [HashKey], keeps it true of
    every hash that every key sits in the chain of its own hash key, is a
    live object, and compares equal to no other key of that chain. *)
Theorem Hash_ok_kept :
  (forall s, Hash_ok (NewHash s).2 (NewHash s).1)
  /\ (forall h h' pairs s s',
        Hash_ok s h' -> Add_all h pairs s = Some s' -> Hash_ok s' h')
  /\ (forall key hashKey s hk s1 h,
        Hashable key = Some hashKey -> hashKey s = Some (hk, s1) ->
        Hash_ok s h -> Hash_ok s1 h).
Proof.
  split; [apply Hash_ok_NewHash |].
  split; [intros; by eapply Hash_ok_Add_all | intros; by eapply Hash_ok_HashKey].
Qed.

(** X2. No key is stored twice: in a hash that satisfies the invariant, in
    a store without stale caches, two pairs whose keys compare equal are the
    same position of the same chain. *)
Theorem Hash_no_duplicate_keys s h hk1 hk2 chain1 chain2 i j p q :
  caches_ok s -> Hash_ok s h ->
  Pairs_at s h hk1 = Some chain1 -> Pairs_at s h hk2 = Some chain2 ->
  chain1 !! i = Some p -> chain2 !! j = Some q ->
  compareObjects s (HashPair_Key p) (HashPair_Key q) = Some true ->
  hk1 = hk2 /\ i = j.
Proof.
  intros Ok (_ & Hc) P1 P2 Hi Hj C.
  destruct (Hc _ _ P1) as (K1 & U1). destruct (Hc _ _ P2) as (K2 & _).
  destruct (K1 p) as (_ & D1); [apply list_elem_of_lookup; eauto |].
  destruct (K2 q) as (_ & D2); [apply list_elem_of_lookup; eauto |].
  assert (hk1 = hk2) as <-.
  { pose proof (compareObjects_HashKey_of s _ _ (Ok _) (Ok _) C). congruence. }
  split; [done |]. rewrite P1 in P2. injection P2 as <-. eauto.
Qed.

(** X3. A key that was never added is never found: a fresh hash has only
    empty chains, and when [FindPair(key)] finds nothing, it still finds
    nothing after any run of [Add] calls whose keys do not compare equal to
    [key]. *)
Theorem FindPair_never_added :
  (forall s hk key,
     Pairs_at (NewHash s).2 (NewHash s).1 hk = Some []
     /\ FindPair (NewHash s).2 [] key = Some None)
  /\ (forall h key hk pairs s chain s',
        HashKey_of s key = Some hk -> Pairs_at s h hk = Some chain ->
        FindPair s chain key = Some None ->
        (forall kv, kv ∈ pairs -> compareObjects s kv.1 key = Some false) ->
        Add_all h pairs s = Some s' ->
        exists chain', Pairs_at s' h hk = Some chain'
          /\ FindPair s' chain' key = Some None).
Proof.
  split.
  - intros s hk key. unfold Pairs_at, NewHash. simpl.
    by rewrite lookup_insert_eq.
  - intros h key hk pairs. induction pairs as [|[k v] pairs IH];
      intros s chain s' D P F N; simpl.
    + intros [= <-]. eauto.
    + destruct (Add h k v s) as [[e s1]|] eqn:A; [| done].
      intros R.
      destruct (Add_keeps_absent _ _ _ _ _ _ _ _ _ D P F (N (k, v) ltac:(by left)) A)
        as (D1 & V & chain1 & P1 & F1).
      eapply IH; eauto.
      intros kv Hin. rewrite (compareObjects_values_eq s s1) by done.
      apply N. by right.
Qed.

(** X4. The last write wins: when [FindPair(key)] finds a pair and [Add]
    is called with a key that compares equal to [key] and has the same hash
    key (the same object, or any equal one when no cache is stale), the pair
    is overwritten: the chain keeps its length and [FindPair(key)] now
    yields the new key and value. *)
Theorem Add_overwrites h key key' value' hk chain found s s' :
  compareObjects s key' key = Some true ->
  HashKey_of s key = Some hk -> HashKey_of s key' = Some hk ->
  Pairs_at s h hk = Some chain ->
  FindPair s chain key = Some (Some found) ->
  Add h key' value' s = Some (None, s') ->
  exists chain', Pairs_at s' h hk = Some chain'
    /\ length chain' = length chain
    /\ FindPair s' chain' key = Some (Some (mkHashPair key' value')).
Proof.
  intros T D D' P F A.
  destruct (Add_effect _ _ _ _ _ A)
    as (hk' & chain0 & r & D0 & P0 & R & Ps & _ & V & _).
  assert (hk' = hk) as -> by congruence.
  rewrite P in P0. injection P0 as <-.
  destruct (FindPair_updated _ _ _ _ _ _ _ T F R) as (c & -> & L & F2).
  exists c. simpl in Ps. split; [done |]. split; [done |].
  by rewrite (FindPair_values_eq s s').
Qed.

(** X5. [Add] never loses a key: when [FindPair(key)] finds a pair, it
    still finds one after any call of [Add] on that hash, whether that call
    succeeds or returns an error; and it finds the very same pair when the
    added key does not compare equal to [key]. *)
Theorem Add_never_loses h key key' value' hk chain found s e s' :
  HashKey_of s key = Some hk -> Pairs_at s h hk = Some chain ->
  FindPair s chain key = Some (Some found) ->
  Add h key' value' s = Some (e, s') ->
  exists chain' found',
    Pairs_at s' h hk = Some chain'
    /\ FindPair s' chain' key = Some (Some found')
    /\ (compareObjects s key' key = Some false -> found' = found).
Proof.
  intros D P F A. destruct e as [e|].
  { apply Add_error_inv in A as (-> & _). eauto. }
  destruct (Add_effect _ _ _ _ _ A)
    as (hk' & chain0 & r & D0 & P0 & R & Ps & Po & V & _ & _ & Vk' & _).
  destruct (FindPair_found_true _ _ _ _ F) as (_ & Ct).
  destruct (compareObjects_true_valid _ _ _ Ct) as (_ & _ & _ & Vk & _).
  destruct (compareObjects_total s key' key Vk' Vk) as [[] C].
  - destruct (decide (hk = hk')) as [<-|Hne].
    + rewrite P in P0. injection P0 as <-.
      destruct (FindPair_updated _ _ _ _ _ _ _ C F R) as (c & -> & L & F2).
      exists c, (mkHashPair key' value'). simpl in Ps.
      split; [done |]. split; [by rewrite (FindPair_values_eq s s') | congruence].
    + exists chain, found. rewrite Po by done.
      split; [done |]. split; [by rewrite (FindPair_values_eq s s') | done].
  - destruct (Add_keeps _ _ _ _ _ _ _ _ _ _ D P F C A) as (_ & _ & c & Pc & Fc).
    exists c, found. done.
Qed.

Lemma cached_set_hash h X s o : cached (set_hash h X s) o = cached s o.
Proof. done. Qed.

Lemma Add_environments h key value s e s' :
  Add h key value s = Some (e, s') ->
  environments s' = environments s /\ next s' = next s.
Proof.
  intros A. destruct e as [e|].
  { by apply Add_error_inv in A as (-> & _). }
  destruct (Add_inv _ _ _ _ _ A) as (m & hk & s1 & H & t & r & Hm & E & _ & _ & _ & ->).
  by destruct (HashKey_effect _ _ _ _ _ Hm E) as (_ & _ & He & Hn & _).
Qed.

(** X6. What [Add] leaves alone: the environments, the allocation pointer,
    every [Value], every other hash, and the cache of every object but the
    key. *)
Theorem Add_frame h key value s e s' :
  Add h key value s = Some (e, s') ->
  environments s' = environments s /\ next s' = next s
  /\ values_eq s s'
  /\ (forall h', h' <> h -> hashes s' !! h' = hashes s !! h')
  /\ (forall o, o <> key -> cached s' o = cached s o).
Proof.
  intros A. destruct e as [e|].
  { apply Add_error_inv in A as (-> & _). by repeat split. }
  destruct (Add_inv _ _ _ _ _ A) as (m & hk & s1 & H & t & r & Hm & E & _ & _ & _ & ->).
  destruct (HashKey_effect _ _ _ _ _ Hm E) as (V & Hh & He & Hn & _).
  destruct (HashKey_caches _ _ _ _ _ Hm E) as (_ & Hc).
  split; [done |]. split; [done |]. split; [exact V |]. split.
  - intros h' N. simpl. rewrite lookup_insert_ne by done. by rewrite Hh.
  - intros o N. rewrite cached_set_hash. by destruct (Hc o) as [-> | (? & _)].
Qed.

(** X7. [compareObjects] is an equivalence on live Integers, Booleans and
    Strings: reflexive, symmetric, transitive.  An object of any other type
    compares equal to nothing, not even to itself. *)
Theorem compareObjects_equivalence s :
  (forall a, is_Some (Hashable a) -> valid s a -> compareObjects s a a = Some true)
  /\ (forall a b, compareObjects s a b = compareObjects s b a)
  /\ (forall a b c, compareObjects s a b = Some true ->
        compareObjects s b c = Some true -> compareObjects s a c = Some true)
  /\ (forall a b, Hashable a = None -> compareObjects s a b = Some false).
Proof.
  split; [apply compareObjects_refl |]. split; [apply compareObjects_sym |].
  split; [apply compareObjects_trans |].
  intros a b. unfold Hashable, compareObjects.
  destruct (negb _); [done |]. by destruct (dyn a).
Qed.

Lemma uint64_inj v w :
  - 2 ^ 63 <= v < 2 ^ 63 -> - 2 ^ 63 <= w < 2 ^ 63 -> uint64 v = uint64 w -> v = w.
Proof.
  intros Rv Rw. destruct (uint64_cast v Rv) as (-> & _).
  destruct (uint64_cast w Rw) as (-> & _).
  destruct (Z.ltb_spec v 0), (Z.ltb_spec w 0); lia.
Qed.

(** X8. Integer and Boolean keys never collide: when two objects without
    stale caches have the same hash key and one of them is not a String,
    they compare equal (Integer values being [int64]s).  Two keys that share
    a chain without being equal are therefore always Strings. *)
Theorem HashKey_collisions_only_strings s a b hk :
  cache_ok s a -> cache_ok s b ->
  HashKey_of s a = Some hk -> HashKey_of s b = Some hk ->
  dyn a <> PString ->
  (forall I, as_Integer s a = Some I -> - 2 ^ 63 <= Integer_Value I < 2 ^ 63) ->
  (forall I, as_Integer s b = Some I -> - 2 ^ 63 <= Integer_Value I < 2 ^ 63) ->
  compareObjects s a b = Some true.
Proof.
  intros Ca Cb Da Db NS Ra Rb.
  rewrite (HashKey_of_computed _ _ Ca) in Da. rewrite (HashKey_of_computed _ _ Cb) in Db.
  assert (dyn a = dyn b) as Ed.
  { apply Type_inj. rewrite <- (computed_Type _ _ _ Da), <- (computed_Type _ _ _ Db). done. }
  unfold compareObjects. rewrite Type_eqb, bool_decide_eq_true_2 by done. simpl.
  unfold computed, as_Integer, as_Boolean in *. rewrite <- Ed in *.
  destruct (dyn a); try done.
  - destruct (integers s !! ptr a) as [A|]; simpl in *; [| done].
    destruct (integers s !! ptr b) as [B|]; simpl in *; [| done].
    injection Da as <-. injection Db as Hv. f_equal. apply Z.eqb_eq.
    symmetry. apply uint64_inj; eauto.
  - destruct (booleans s !! ptr a) as [[[] ?]|]; simpl in *; [| | done];
      destruct (booleans s !! ptr b) as [[[] ?]|]; simpl in *; try done;
      injection Da as <-; by injection Db.
Qed.

Lemma caches_ok_NewClosedEnvironment outer s :
  caches_ok s -> caches_ok (NewClosedEnvironment outer s).2.
Proof.
  intros Ok o. unfold NewClosedEnvironment, NewEnvironment. simpl.
  rewrite lookup_insert_eq. exact (Ok o).
Qed.

Lemma caches_ok_Set e name val s r s' :
  Set_ e name val s = Some (r, s') -> caches_ok s -> caches_ok s'.
Proof.
  unfold Set_. destruct (environments s !! e); simpl; [| done].
  destruct (map_assign _ _ _); simpl; [| done].
  intros [= <- <-] Ok o. exact (Ok o).
Qed.

(** X9. No function of the package makes a cache stale: the caches are
    empty when the package is loaded, and [HashKey], [Add], the
    constructors and [Set] all leave every cache empty or holding the key
    of the object's current [Value]. *)
Theorem caches_ok_kept :
  caches_ok init
  /\ (forall key hashKey s hk s1,
        Hashable key = Some hashKey -> hashKey s = Some (hk, s1) ->
        caches_ok s -> caches_ok s1)
  /\ (forall h key value s e s',
        Add h key value s = Some (e, s') -> caches_ok s -> caches_ok s')
  /\ (forall value s, caches_ok s -> caches_ok (NewInteger value s).2)
  /\ (forall value s, caches_ok s -> caches_ok (NewString value s).2)
  /\ (forall s, caches_ok s -> caches_ok (NewHash s).2)
  /\ (forall s, caches_ok s -> caches_ok (NewEnvironment s).2)
  /\ (forall outer s, caches_ok s -> caches_ok (NewClosedEnvironment outer s).2)
  /\ (forall e name val s r s',
        Set_ e name val s = Some (r, s') -> caches_ok s -> caches_ok s').
Proof.
  split; [apply caches_ok_init |].
  split; [apply caches_ok_HashKey |].
  split; [apply caches_ok_Add |].
  split; [apply caches_ok_NewInteger |].
  split; [apply caches_ok_NewString |].
  split; [apply caches_ok_NewHash |].
  split; [apply caches_ok_NewEnvironment |].
  split; [apply caches_ok_NewClosedEnvironment | apply caches_ok_Set].
Qed.

(** X10. A hash key names its object's type and holds a [uint64]: for an
    object without a stale cache, what [HashKey] returns has the object's
    [Type()] in its [Type] field and a [Value] in [0, 2^64). *)
Theorem HashKey_well_formed s o hk :
  cache_ok s o -> HashKey_of s o = Some hk ->
  HashKey_Type hk = Type_ o /\ 0 <= HashKey_Value hk < 2 ^ 64.
Proof.
  intros C D. rewrite (HashKey_of_computed _ _ C) in D.
  split; [by eapply computed_Type | by eapply computed_range].
Qed.

(** X20. [compareObjects] does not panic on live objects, and tells
    whether two objects are the same value: called on objects whose
    pointers are live it returns, the type assertion on [b] never failing
    since [Type()] names the dynamic type; and it returns [true] exactly
    when both are Integers, both Booleans or both Strings, and their
    [Value] fields are equal. *)
Theorem compareObjects_decides s a b :
  valid s a -> valid s b ->
  exists r, compareObjects s a b = Some r
    /\ (r = true <->
        is_Some (Hashable a) /\ dyn a = dyn b
        /\ Integer_Value <$> as_Integer s a = Integer_Value <$> as_Integer s b
        /\ Boolean_Value <$> as_Boolean s a = Boolean_Value <$> as_Boolean s b
        /\ String_Value <$> as_String s a = String_Value <$> as_String s b).
Proof.
  unfold compareObjects, valid, Hashable, as_String, as_Integer, as_Boolean.
  rewrite Type_eqb. case_bool_decide as E; simpl.
  - rewrite <- E.
    destruct (dyn a); try (intros _ _; exists false; split; [done |];
                           split; [done | by intros ([? ?] & _)]).
    + intros [A ->] [B ->]. simpl. eexists. split; [done |].
      rewrite Z.eqb_eq. split; [intros ->; eauto 10 | by intros (_ & _ & [= ->] & _)].
    + intros [A ->] [B ->]. simpl. eexists. split; [done |].
      rewrite Bool.eqb_true_iff.
      split; [intros ->; eauto 10 | by intros (_ & _ & _ & [= ->] & _)].
    + intros [A ->] [B ->]. simpl. eexists. split; [done |].
      rewrite String.eqb_eq.
      split; [intros ->; eauto 10 | by intros (_ & _ & _ & _ & [= ->])].
  - intros _ _. exists false. split; [done |]. split; [done | by intros (_ & ? & _)].
Qed.

(** X21. [Add] needs a hash made by [NewHash]: on a [Hash] whose [Pairs]
    map is nil, [Add] with a key of a hashable type panics, for the read of
    the chain yields nil, the loop finds nothing, and the assignment of the
    one-pair chain into the nil map panics. *)
Theorem Add_nil_Pairs h key value s :
  hashes s !! h = Some (mkHash None) ->
  is_Some (Hashable key) ->
  Add h key value s = None.
Proof.
  intros EH [hashKey Hk]. unfold Add. rewrite Hk.
  destruct (hashKey s) as [[hk s1]|] eqn:E; simpl; [| done].
  destruct (HashKey_effect _ _ _ _ _ Hk E) as (_ & -> & _).
  by rewrite EH.
Qed.

(* ===================================================================== *)
(** ** Further properties of environments *)
(* ===================================================================== *)

(** [Get] from [e] only reads the environments of the chain of [e], which
    under [envs_ok] were all allocated no later than [e]. *)
Lemma Get_agree s s' name :
  envs_ok s -> forall fuel (e : loc),
  (forall p : loc, (p <= e)%positive -> environments s' !! p = environments s !! p) ->
  Get fuel s' e name = Get fuel s e name.
Proof.
  intros Ok. induction fuel as [|fuel IH]; intros e Hagree; simpl; [done |].
  rewrite Hagree by lia.
  destruct (environments s !! e) as [E|] eqn:He; simpl; [| done].
  destruct (map_index (Environment_store E) name); [done |].
  destruct (Environment_outer E) as [outer|] eqn:Ho; [| done].
  destruct (Ok e E He) as (_ & Hout). destruct (Hout outer Ho) as (Hlt & _).
  apply IH. intros p Hp. apply Hagree. lia.
Qed.

Lemma Set_inv e name val s r s' :
  Set_ e name val s = Some (r, s') ->
  exists E t, environments s !! e = Some E /\ Environment_store E = Some t
    /\ r = val
    /\ s' = set_environment e
              (mkEnvironment (Some (<[name := val]> t)) (Environment_outer E)) s.
Proof.
  unfold Set_. destruct (environments s !! e) as [E|]; simpl; [| done].
  destruct (Environment_store E) as [t|] eqn:Et; simpl; [| done].
  intros [= <- <-]. by exists E, t.
Qed.

(** X11. Round trip of [Set] and [Get]: [Set] returns the value it was
    given; right after [e.Set(name, val)], [e.Get(name)] yields [val],
    whatever was bound before and whatever the outer environments hold; and
    [Get] of any other name, from any environment, yields what it yielded
    before. *)
Theorem Set_Get e name val s r s' :
  Set_ e name val s = Some (r, s') ->
  r = val
  /\ (forall fuel, Get (S fuel) s' e name = Some (Some val))
  /\ (forall e' name' fuel, name' <> name ->
        Get fuel s' e' name' = Get fuel s e' name').
Proof.
  intros A. destruct (Set_inv _ _ _ _ _ _ A) as (E & t & He & Et & -> & ->).
  split; [done |]. split.
  - intros fuel. simpl. rewrite lookup_insert_eq. simpl. by rewrite lookup_insert_eq.
  - intros e' name' fuel N. revert e'. induction fuel as [|fuel IH]; intros e'; simpl; [done |].
    destruct (decide (e = e')) as [<-|Hne].
    + rewrite lookup_insert_eq, He. simpl. rewrite Et. simpl.
      rewrite lookup_insert_ne by done.
      destruct (t !! name'); [done |]. destruct (Environment_outer E); [apply IH | done].
    + rewrite lookup_insert_ne by done.
      destruct (environments s !! e') as [E'|]; simpl; [| done].
      destruct (map_index (Environment_store E') name'); [done |].
      destruct (Environment_outer E'); [apply IH | done].
Qed.

(** X12. A binding made in an environment does not leak outwards: after
    [e.Set(name, val)], [Get] of any name from an environment allocated
    before [e] (the environment [e] was enclosed in, the ones that one was
    enclosed in, and every other older one) yields what it yielded
    before. *)
Theorem Set_does_not_leak e name val s r s' older :
  envs_ok s ->
  Set_ e name val s = Some (r, s') ->
  (older < e)%positive ->
  forall name' fuel, Get fuel s' older name' = Get fuel s older name'.
Proof.
  intros Ok A Hlt name' fuel.
  destruct (Set_inv _ _ _ _ _ _ A) as (E & t & He & Et & -> & ->).
  apply Get_agree; [done |]. intros p Hp. simpl. apply lookup_insert_ne. lia.
Qed.

Lemma NewClosedEnvironment_environments outer s :
  environments (NewClosedEnvironment outer s).2
  = <[next s := mkEnvironment (Some ∅) outer]> (environments s)
  /\ (NewClosedEnvironment outer s).1 = next s.
Proof.
  unfold NewClosedEnvironment, NewEnvironment. simpl.
  rewrite lookup_insert_eq. simpl. by rewrite insert_insert_eq.
Qed.

(** X13. Fresh environments: [Get] from the environment [NewEnvironment]
    returns finds nothing, for every name; [Get] from the environment
    [NewClosedEnvironment(outer)] returns yields what [outer.Get] yields;
    and creating an environment changes nothing for the environments that
    exist. *)
Theorem NewEnvironment_Get :
  (forall s name fuel,
     Get (S fuel) (NewEnvironment s).2 (NewEnvironment s).1 name = Some None)
  /\ (forall s outer name fuel,
        envs_ok s -> is_Some (environments s !! outer) ->
        Get (S fuel) (NewClosedEnvironment (Some outer) s).2
            (NewClosedEnvironment (Some outer) s).1 name
        = Get fuel s outer name)
  /\ (forall s outer e name fuel,
        envs_ok s -> is_Some (environments s !! e) ->
        Get fuel (NewClosedEnvironment outer s).2 e name = Get fuel s e name
        /\ Get fuel (NewEnvironment s).2 e name = Get fuel s e name).
Proof.
  split; [| split].
  - intros s name fuel. unfold NewEnvironment. simpl. by rewrite lookup_insert_eq.
  - intros s outer name fuel Ok [E He].
    destruct (NewClosedEnvironment_environments (Some outer) s) as (Hs & ->).
    simpl. rewrite Hs, lookup_insert_eq. simpl. rewrite lookup_empty.
    apply Get_agree; [done |]. intros p Hp. rewrite Hs.
    apply lookup_insert_ne. destruct (Ok outer E He) as (? & _). lia.
  - intros s outer e name fuel Ok [E He]. destruct (Ok e E He) as (Hlt & _). split.
    + destruct (NewClosedEnvironment_environments outer s) as (Hs & _).
      apply Get_agree; [done |]. intros p Hp. rewrite Hs. apply lookup_insert_ne. lia.
    + apply Get_agree; [done |]. intros p Hp. unfold NewEnvironment. simpl.
      apply lookup_insert_ne. lia.
Qed.

Lemma envs_ok_frame s s' :
  environments s' = environments s -> (next s <= next s')%positive ->
  envs_ok s -> envs_ok s'.
Proof.
  intros He Hn Ok e E. rewrite He. intros H. destruct (Ok e E H) as (Hlt & Hout).
  split; [lia |]. intros outer Ho. by apply Hout.
Qed.

(** X14. The scope chain stays well founded: at start-up there is no
    environment, and [NewEnvironment], [NewClosedEnvironment] (on nil or on
    an existing environment), [Set], [HashKey], [Add] and the other
    constructors all keep it true that every [outer] pointer points to an
    existing environment that was allocated earlier.  So no chain of
    [outer] pointers is ever circular. *)
Theorem envs_ok_kept :
  envs_ok init
  /\ (forall s, envs_ok s -> envs_ok (NewEnvironment s).2)
  /\ (forall outer s,
        envs_ok s -> (forall o, outer = Some o -> is_Some (environments s !! o)) ->
        envs_ok (NewClosedEnvironment outer s).2)
  /\ (forall e name val s r s', Set_ e name val s = Some (r, s') -> envs_ok s -> envs_ok s')
  /\ (forall key hashKey s hk s1,
        Hashable key = Some hashKey -> hashKey s = Some (hk, s1) ->
        envs_ok s -> envs_ok s1)
  /\ (forall h key value s e s', Add h key value s = Some (e, s') -> envs_ok s -> envs_ok s')
  /\ (forall value s, envs_ok s -> envs_ok (NewInteger value s).2)
  /\ (forall value s, envs_ok s -> envs_ok (NewString value s).2)
  /\ (forall s, envs_ok s -> envs_ok (NewHash s).2).
Proof.
  split; [apply envs_ok_init |]. split; [apply envs_ok_NewEnvironment |].
  split; [intros outer s Ok Hv; by apply envs_ok_NewClosedEnvironment |].
  split; [apply envs_ok_Set |].
  split; [| split; [| split; [| split]]].
  - intros key hashKey s hk s1 Hk E.
    destruct (HashKey_effect _ _ _ _ _ Hk E) as (_ & _ & He & Hn & _).
    apply envs_ok_frame; [done | lia].
  - intros h key value s e s' A.
    destruct (Add_environments _ _ _ _ _ _ A) as (He & Hn).
    apply envs_ok_frame; [done | lia].
  - intros value s. apply envs_ok_frame; [done | simpl; lia].
  - intros value s. apply envs_ok_frame; [done | simpl; lia].
  - intros s. apply envs_ok_frame; [done | simpl; lia].
Qed.

(** X15. [Get] returns: when the scope chain is well founded, [Get] from an
    existing environment [e] needs no more fuel than the number of
    environments that can lie on the chain of [e], which is at most the
    rank of [e] in allocation order. *)
Theorem Get_returns s (e : loc) name fuel :
  envs_ok s -> is_Some (environments s !! e) ->
  (Pos.to_nat e <= fuel)%nat ->
  is_Some (Get fuel s e name).
Proof.
  intros Ok. revert e. induction fuel as [|fuel IH]; intros e [E He] Hf; [lia |].
  simpl. rewrite He. simpl.
  destruct (map_index (Environment_store E) name); [eauto |].
  destruct (Environment_outer E) as [outer|] eqn:Ho; [| eauto].
  destruct (Ok e E He) as (_ & Hout). destruct (Hout outer Ho) as (Hlt & Hs).
  apply IH; [done | lia].
Qed.

(* ===================================================================== *)
(** ** The statements at the sample data *)
(* ===================================================================== *)

(** Re-inserting [key_one] into the hash that holds it: the pair is
    overwritten and the chain keeps its length. *)
Lemma Add_replaces_or_appends_witness :
  HashKey_of sample1 key_one = Some (mkHashKey STRING_OBJ 1)
  /\ Hash_ready sample1 6%positive
  /\ Pairs_at sample1 6%positive (mkHashKey STRING_OBJ 1)
     = Some [mkHashPair key_one true_object]
  /\ (forall p, p ∈ [mkHashPair key_one true_object] -> valid sample1 (HashPair_Key p))
  /\ exists s' chain',
       Add 6%positive key_one false_object sample1 = Some (None, s')
       /\ Pairs_at s' 6%positive (mkHashKey STRING_OBJ 1) = Some chain'
       /\ length chain' = 1%nat.
Proof.
  assert (D : HashKey_of sample1 key_one = Some (mkHashKey STRING_OBJ 1))
    by (vm_compute; reflexivity).
  assert (R : Hash_ready sample1 6%positive).
  { eexists _, _. split; vm_compute; reflexivity. }
  assert (P : Pairs_at sample1 6%positive (mkHashKey STRING_OBJ 1)
              = Some [mkHashPair key_one true_object])
    by (vm_compute; reflexivity).
  assert (V : forall p, p ∈ [mkHashPair key_one true_object] ->
                        valid sample1 (HashPair_Key p)).
  { intros p ->%list_elem_of_singleton. vm_compute. eauto. }
  do 4 (split; [assumption |]).
  destruct (Add_replaces_or_appends 6%positive key_one false_object sample1 _ _ D R P V)
    as (s' & chain' & A & P' & Hrep & _).
  exists s', chain'. do 2 (split; [assumption |]).
  apply Hrep. exists (mkHashPair key_one true_object).
  split; [by apply list_elem_of_singleton | vm_compute; reflexivity].
Defined.

(** Two keys with colliding hash keys can both be retrieved. *)
Lemma Add_collision_safe_witness :
  compareObjects sample key_one key_two = Some false
  /\ Add 6%positive key_one true_object sample = Some (None, sample1)
  /\ Add 6%positive key_two minus_one sample1 = Some (None, sample2)
  /\ exists hk chain,
       HashKey_of sample2 key_one = Some hk /\ HashKey_of sample2 key_two = Some hk
       /\ Pairs_at sample2 6%positive hk = Some chain
       /\ FindPair sample2 chain key_one = Some (Some (mkHashPair key_one true_object))
       /\ FindPair sample2 chain key_two = Some (Some (mkHashPair key_two minus_one)).
Proof.
  assert (N : compareObjects sample key_one key_two = Some false)
    by (vm_compute; reflexivity).
  assert (A1 : Add 6%positive key_one true_object sample = Some (None, sample1))
    by (vm_compute; reflexivity).
  assert (A2 : Add 6%positive key_two minus_one sample1 = Some (None, sample2))
    by (vm_compute; reflexivity).
  do 3 (split; [assumption |]).
  destruct (Add_collision_safe _ _ _ _ _ _ _ _ N A1 A2)
    as ((hk1 & hk2 & c1 & c2 & D1 & D2 & P1 & P2 & F1 & F2 & Hsame) & _).
  assert (hk1 = hk2) as <-.
  { assert (D1' : HashKey_of sample2 key_one = Some (mkHashKey STRING_OBJ 1))
      by (vm_compute; reflexivity).
    assert (D2' : HashKey_of sample2 key_two = Some (mkHashKey STRING_OBJ 1))
      by (vm_compute; reflexivity).
    congruence. }
  rewrite <- (Hsame eq_refl) in F2.
  exists hk1, c1. auto.
Defined.

(** What was added is found. *)
Lemma Add_FindPair_roundtrip_witness :
  Add 6%positive key_one true_object sample = Some (None, sample1)
  /\ exists hk chain,
       HashKey_of sample1 key_one = Some hk
       /\ Pairs_at sample1 6%positive hk = Some chain
       /\ FindPair sample1 chain key_one = Some (Some (mkHashPair key_one true_object)).
Proof.
  assert (A1 : Add 6%positive key_one true_object sample = Some (None, sample1))
    by (vm_compute; reflexivity).
  split; [assumption |].
  destruct (Add_FindPair_roundtrip _ _ _ _ _ A1) as (hk & chain & D & P & F & _).
  exists hk, chain. auto.
Defined.

(** A hash is not a key. *)
Lemma Add_unhashable_key_witness :
  dyn hash_object <> PInteger /\ dyn hash_object <> PBoolean
  /\ dyn hash_object <> PString
  /\ Add 6%positive hash_object true_object sample
     = Some (Some "unusable as hash key: HASH", sample).
Proof.
  assert (NI : dyn hash_object <> PInteger) by (vm_compute; discriminate).
  assert (NB : dyn hash_object <> PBoolean) by (vm_compute; discriminate).
  assert (NS : dyn hash_object <> PString) by (vm_compute; discriminate).
  do 3 (split; [assumption |]).
  exact (Add_unhashable_key 6%positive hash_object true_object sample NI NB NS).
Defined.

(** The hash key of the integer [-1]. *)
Lemma HashKey_derivation_witness :
  integers sample !! 5%positive = Some (mkInteger (-1) None)
  /\ cache_ok sample minus_one
  /\ exists s', Integer_HashKey 5%positive sample
                = Some (mkHashKey "INTEGER" 18446744073709551615, s').
Proof.
  assert (E : integers sample !! 5%positive = Some (mkInteger (-1) None))
    by (vm_compute; reflexivity).
  assert (C : cache_ok sample minus_one) by (left; vm_compute; reflexivity).
  do 2 (split; [assumption |]).
  exact (proj1 HashKey_derivation sample 5%positive (mkInteger (-1) None) E C).
Defined.

(** Two strings of equal content, one hashed already and one not. *)
Lemma compareObjects_HashKey_eq_witness :
  let s := (NewString "one" (NewString "one" init).2).2 in
  let a := mkObject PString 3%positive in
  let b := mkObject PString 4%positive in
  cache_ok s a /\ cache_ok s b /\ compareObjects s a b = Some true
  /\ exists hashKey_a hashKey_b hk s1 s2,
       Hashable a = Some hashKey_a /\ Hashable b = Some hashKey_b
       /\ hashKey_a s = Some (hk, s1) /\ hashKey_b s1 = Some (hk, s2).
Proof.
  intros s a b.
  assert (Ca : cache_ok s a) by (left; vm_compute; reflexivity).
  assert (Cb : cache_ok s b) by (left; vm_compute; reflexivity).
  assert (C : compareObjects s a b = Some true) by (vm_compute; reflexivity).
  do 3 (split; [assumption |]).
  exact (compareObjects_HashKey_eq s a b Ca Cb C).
Defined.

(** Lookup from the inner sample environment: [y] is found in the outer
    one. *)
Lemma Get_innermost_witness :
  exists E8 E7,
    env_chain sample 8%positive [E8; E7]
    /\ (length [E8; E7] <= 2)%nat
    /\ exists found, Get 2 sample 8%positive "y" = Some found
         /\ (found = None <->
             forall E, E ∈ [E8; E7] -> map_index (Environment_store E) "y" = None).
Proof.
  assert (exists E8, environments sample !! 8%positive = Some E8
                     /\ Environment_outer E8 = Some 7%positive) as (E8 & H8 & O8).
  { eexists. split; vm_compute; reflexivity. }
  assert (exists E7, environments sample !! 7%positive = Some E7
                     /\ Environment_outer E7 = None) as (E7 & H7 & O7).
  { eexists. split; vm_compute; reflexivity. }
  assert (C : env_chain sample 8%positive [E8; E7]).
  { eapply env_chain_outer; [exact H8 | exact O8 |]. by apply env_chain_root. }
  assert (L : (length [E8; E7] <= 2)%nat) by (simpl; lia).
  exists E8, E7. do 2 (split; [assumption |]).
  destruct (Get_innermost sample 8%positive [E8; E7] "y" 2 C L) as (found & G & _ & Hn).
  exists found. auto.
Defined.

(** The sample session: its second line is rejected, and what follows the
    [Parsed] event is the error report and the next prompt. *)
Lemma Start_skips_evaluation_on_errors_witness :
  let tr := repl.trace nat
              (repl.session nat sample_parse sample_eval sample_inspect sample_lines init).1 in
  let errors := ["expected next token to be IDENT, got = instead"] in
  tr = take 10 tr ++ repl.Parsed nat "let = 5;" 0%nat errors :: drop 11 tr
  /\ errors <> []
  /\ exists next post',
       drop 11 tr
       = List.map (repl.Wrote nat) (repl.error_lines errors)
           ++ repl.Wrote nat repl.PROMPT :: repl.Scanned nat next :: post'.
Proof.
  intros tr errors.
  assert (E : tr = take 10 tr ++ repl.Parsed nat "let = 5;" 0%nat errors :: drop 11 tr)
    by (vm_compute; reflexivity).
  assert (N : errors <> []) by discriminate.
  do 2 (split; [assumption |]).
  destruct (Start_skips_evaluation_on_errors sample_parse sample_eval sample_inspect
              sample_lines init) as (_ & _ & _ & HP & _).
  destruct (HP _ _ _ _ _ E) as (_ & He & _).
  exact (He N).
Defined.

(** The sample session: both evaluations receive the environment created
    at the start, and the second starts where the first ended. *)
Lemma Start_one_environment_witness :
  let tr := repl.trace nat
              (repl.session nat sample_parse sample_eval sample_inspect sample_lines init).1 in
  exists env s0 rest,
    tr = repl.Created nat env s0 :: rest
    /\ (forall pre program env' before returned post,
          rest = pre ++ repl.Evaluated nat program env' before returned :: post ->
          env' = env)
    /\ repl.threaded s0 (repl.evaluations nat rest)
         (repl.heap nat
            (repl.session nat sample_parse sample_eval sample_inspect sample_lines init).1).
Proof.
  intros tr.
  destruct (Start_one_environment sample_parse sample_eval sample_inspect
              sample_lines init) as (_ & env & s0 & rest & E & _ & _ & _ & He & Ht & _).
  exists env, s0, rest. auto.
Defined.

(** A session in which the evaluator does not return on the first line:
    the record ends with that call, and the second line is never read. *)
Example session_ends_with_evaluator :
  let r := repl.session nat sample_parse sample_eval sample_inspect ["loop()"; "x"] init in
  r.2 = false
  /\ repl.stdin nat r.1 = ["x"]
  /\ drop 1 (repl.trace nat r.1)
     = [repl.Wrote nat repl.PROMPT; repl.Scanned nat (Some "loop()");
        repl.Parsed nat "loop()" 6%nat [];
        repl.Evaluated nat 6%nat 3%positive (NewEnvironment init).2 None].
Proof. vm_compute. done. Qed.
(** Hashing [TRUE] fills its cache and leaves its [Value]. *)
Lemma GetBooleanObject_singleton_witness :
  Hashable true_object = Some (Boolean_HashKey TRUE)
  /\ Boolean_HashKey TRUE init
     = Some (mkHashKey BOOLEAN_OBJ 1,
             set_boolean TRUE (mkBoolean true (Some (mkHashKey BOOLEAN_OBJ 1))) init)
  /\ Boolean_Value
       <$> booleans (set_boolean TRUE (mkBoolean true (Some (mkHashKey BOOLEAN_OBJ 1))) init)
           !! TRUE
     = Boolean_Value <$> booleans init !! TRUE.
Proof.
  assert (Hk : Hashable true_object = Some (Boolean_HashKey TRUE)) by reflexivity.
  assert (E : Boolean_HashKey TRUE init
              = Some (mkHashKey BOOLEAN_OBJ 1,
                      set_boolean TRUE (mkBoolean true (Some (mkHashKey BOOLEAN_OBJ 1))) init))
    by (vm_compute; reflexivity).
  do 2 (split; [assumption |]).
  destruct GetBooleanObject_singleton as (_ & _ & _ & _ & _ & _ & _ & Hv).
  exact (Hv _ _ _ _ _ TRUE Hk E).
Defined.

(** *** The further properties at the sample data *)

Lemma caches_ok_plain : caches_ok plain.
Proof.
  unfold plain.
  apply caches_ok_NewHash, caches_ok_NewInteger, caches_ok_NewString,
    caches_ok_NewString, caches_ok_init.
Qed.

Lemma Add_plain : Add 6%positive key_one true_object plain = Some (None, plain1).
Proof. vm_compute. reflexivity. Qed.

Lemma caches_ok_plain1 : caches_ok plain1.
Proof. exact (caches_ok_Add _ _ _ _ _ _ Add_plain caches_ok_plain). Qed.

Lemma Hash_ok_plain : Hash_ok plain 6%positive.
Proof.
  exact (Hash_ok_NewHash (NewInteger (-1) (NewString "one" (NewString "one" init).2).2).2).
Qed.

Lemma Hash_ok_plain1 : Hash_ok plain1 6%positive.
Proof. exact (Hash_ok_Add _ _ _ _ _ _ _ Add_plain Hash_ok_plain). Qed.

Lemma envs_ok_sample : envs_ok sample.
Proof.
  assert (exists E7 E8,
            environments sample = <[8%positive := E8]> (<[7%positive := E7]> ∅)
            /\ Environment_outer E7 = None /\ Environment_outer E8 = Some 7%positive)
    as (E7 & E8 & He & O7 & O8).
  { eexists (mkEnvironment _ _), (mkEnvironment _ _).
    split; [vm_compute; reflexivity | split; reflexivity]. }
  assert (Hn : next sample = 9%positive) by (vm_compute; reflexivity).
  intros e E. rewrite He, Hn.
  intros [(<- & <-) | (_ & [(<- & <-) | (_ & H)]%lookup_insert_Some)]%lookup_insert_Some.
  - split; [lia |]. intros outer Ho. rewrite O8 in Ho. injection Ho as <-.
    split; [lia |]. rewrite lookup_insert_ne, lookup_insert_eq by done. eauto.
  - split; [lia |]. intros outer Ho. by rewrite O7 in Ho.
  - by rewrite lookup_empty in H.
Qed.

(** The invariant of the hash of [plain], after a run of two calls of
    [Add], one of them with a key that is no hash key. *)
Lemma Hash_ok_kept_witness :
  let pairs := [(key_one, true_object); (hash_object, key_one)] in
  Add_all 6%positive pairs plain = Some plain1 /\ Hash_ok plain1 6%positive.
Proof.
  intros pairs.
  assert (A : Add_all 6%positive pairs plain = Some plain1) by (vm_compute; reflexivity).
  split; [assumption |].
  destruct Hash_ok_kept as (HN & HA & _).
  refine (HA 6%positive 6%positive pairs plain plain1 _ A).
  exact (HN (NewInteger (-1) (NewString "one" (NewString "one" init).2).2).2).
Defined.

(** The one pair of the hash of [plain1]. *)
Lemma Hash_no_duplicate_keys_witness :
  let hk := mkHashKey STRING_OBJ (fnv64a "one") in
  let p := mkHashPair key_one true_object in
  let q := mkHashPair key_one true_object in
  caches_ok plain1 /\ Hash_ok plain1 6%positive
  /\ Pairs_at plain1 6%positive hk = Some [p]
  /\ [p] !! 0%nat = Some p /\ [p] !! 0%nat = Some q
  /\ compareObjects plain1 (HashPair_Key p) (HashPair_Key q) = Some true
  /\ hk = hk /\ 0%nat = 0%nat.
Proof.
  intros hk p q.
  assert (P : Pairs_at plain1 6%positive hk = Some [p]) by (vm_compute; reflexivity).
  assert (Hp : [p] !! 0%nat = Some p) by reflexivity.
  assert (Hq : [p] !! 0%nat = Some q) by reflexivity.
  assert (C : compareObjects plain1 (HashPair_Key p) (HashPair_Key q) = Some true)
    by (vm_compute; reflexivity).
  split; [exact caches_ok_plain1 |]. split; [exact Hash_ok_plain1 |].
  do 4 (split; [assumption |]).
  exact (Hash_no_duplicate_keys plain1 6%positive hk hk [p] [p] 0 0 p q
           caches_ok_plain1 Hash_ok_plain1 P P Hp Hq C).
Defined.

(** The integer [-1], which is not in the hash of [plain], is not found
    after other keys have been added. *)
Lemma FindPair_never_added_witness :
  let hk := mkHashKey INTEGER_OBJ 18446744073709551615 in
  let pairs := [(key_one, true_object); (true_object, false_object)] in
  let s' := from_option id plain (Add_all 6%positive pairs plain) in
  HashKey_of plain minus_one = Some hk
  /\ Pairs_at plain 6%positive hk = Some []
  /\ FindPair plain [] minus_one = Some None
  /\ Add_all 6%positive pairs plain = Some s'
  /\ exists chain', Pairs_at s' 6%positive hk = Some chain'
       /\ FindPair s' chain' minus_one = Some None.
Proof.
  intros hk pairs s'.
  assert (D : HashKey_of plain minus_one = Some hk) by (vm_compute; reflexivity).
  assert (P : Pairs_at plain 6%positive hk = Some []) by (vm_compute; reflexivity).
  assert (F : FindPair plain [] minus_one = Some None) by reflexivity.
  assert (A : Add_all 6%positive pairs plain = Some s') by (vm_compute; reflexivity).
  assert (N : forall kv, kv ∈ pairs -> compareObjects plain kv.1 minus_one = Some false).
  { intros kv Hin. apply list_elem_of_lookup in Hin as [i Hi].
    destruct i as [|[|i]]; simpl in Hi; [| | done];
      injection Hi as <-; vm_compute; reflexivity. }
  do 4 (split; [assumption |]).
  destruct FindPair_never_added as (_ & H).
  exact (H 6%positive minus_one hk pairs plain [] s' D P F N A).
Defined.

(** Adding under [key_two], another String [one], overwrites the pair of
    [key_one]. *)
Lemma Add_overwrites_witness :
  let hk := mkHashKey STRING_OBJ (fnv64a "one") in
  let found := mkHashPair key_one true_object in
  let s' := from_option snd plain1 (Add 6%positive key_two minus_one plain1) in
  compareObjects plain1 key_two key_one = Some true
  /\ HashKey_of plain1 key_one = Some hk /\ HashKey_of plain1 key_two = Some hk
  /\ Pairs_at plain1 6%positive hk = Some [found]
  /\ FindPair plain1 [found] key_one = Some (Some found)
  /\ Add 6%positive key_two minus_one plain1 = Some (None, s')
  /\ exists chain', Pairs_at s' 6%positive hk = Some chain'
       /\ length chain' = length [found]
       /\ FindPair s' chain' key_one = Some (Some (mkHashPair key_two minus_one)).
Proof.
  intros hk found s'.
  assert (T : compareObjects plain1 key_two key_one = Some true)
    by (vm_compute; reflexivity).
  assert (D : HashKey_of plain1 key_one = Some hk) by (vm_compute; reflexivity).
  assert (D' : HashKey_of plain1 key_two = Some hk) by (vm_compute; reflexivity).
  assert (P : Pairs_at plain1 6%positive hk = Some [found]) by (vm_compute; reflexivity).
  assert (F : FindPair plain1 [found] key_one = Some (Some found))
    by (vm_compute; reflexivity).
  assert (A : Add 6%positive key_two minus_one plain1 = Some (None, s'))
    by (vm_compute; reflexivity).
  do 6 (split; [assumption |]).
  exact (Add_overwrites 6%positive key_one key_two minus_one hk [found] found plain1 s'
           T D D' P F A).
Defined.

(** Adding [key_two] to the chain it shares with [key_one] leaves the pair
    of [key_one] in place. *)
Lemma Add_never_loses_witness :
  let hk := mkHashKey STRING_OBJ 1 in
  let found := mkHashPair key_one true_object in
  HashKey_of sample1 key_one = Some hk
  /\ Pairs_at sample1 6%positive hk = Some [found]
  /\ FindPair sample1 [found] key_one = Some (Some found)
  /\ Add 6%positive key_two minus_one sample1 = Some (None, sample2)
  /\ compareObjects sample1 key_two key_one = Some false
  /\ exists chain', Pairs_at sample2 6%positive hk = Some chain'
       /\ FindPair sample2 chain' key_one = Some (Some found).
Proof.
  intros hk found.
  assert (D : HashKey_of sample1 key_one = Some hk) by (vm_compute; reflexivity).
  assert (P : Pairs_at sample1 6%positive hk = Some [found]) by (vm_compute; reflexivity).
  assert (F : FindPair sample1 [found] key_one = Some (Some found))
    by (vm_compute; reflexivity).
  assert (A : Add 6%positive key_two minus_one sample1 = Some (None, sample2))
    by (vm_compute; reflexivity).
  assert (N : compareObjects sample1 key_two key_one = Some false)
    by (vm_compute; reflexivity).
  do 5 (split; [assumption |]).
  destruct (Add_never_loses 6%positive key_one key_two minus_one hk [found] found
              sample1 None sample2 D P F A) as (chain' & found' & P' & F' & Hsame).
  exists chain'. rewrite (Hsame N) in F'. auto.
Defined.

(** What the first [Add] to the sample hash leaves alone. *)
Lemma Add_frame_witness :
  Add 6%positive key_one true_object sample = Some (None, sample1)
  /\ environments sample1 = environments sample /\ next sample1 = next sample
  /\ values_eq sample sample1
  /\ (forall h', h' <> 6%positive -> hashes sample1 !! h' = hashes sample !! h')
  /\ (forall o, o <> key_one -> cached sample1 o = cached sample o).
Proof.
  assert (A : Add 6%positive key_one true_object sample = Some (None, sample1))
    by (vm_compute; reflexivity).
  split; [assumption |].
  exact (Add_frame 6%positive key_one true_object sample None sample1 A).
Defined.

(** The two Strings [one] of [plain]: each compares equal to the other. *)
Lemma compareObjects_equivalence_witness :
  compareObjects plain key_one key_two = Some true
  /\ compareObjects plain key_two key_one = Some true
  /\ compareObjects plain key_one key_one = Some true.
Proof.
  assert (C : compareObjects plain key_one key_two = Some true)
    by (vm_compute; reflexivity).
  destruct (compareObjects_equivalence plain) as (_ & Hsym & Htrans & _).
  assert (C' : compareObjects plain key_two key_one = Some true)
    by (rewrite Hsym; exact C).
  do 2 (split; [assumption |]).
  exact (Htrans key_one key_two key_one C C').
Defined.

(** Two Integer objects of value [7] have one hash key, and are equal. *)
Lemma HashKey_collisions_only_strings_witness :
  let s := (NewInteger 7 (NewInteger 7 init).2).2 in
  let a := mkObject PInteger 3%positive in
  let b := mkObject PInteger 4%positive in
  let hk := mkHashKey INTEGER_OBJ 7 in
  cache_ok s a /\ cache_ok s b
  /\ HashKey_of s a = Some hk /\ HashKey_of s b = Some hk
  /\ dyn a <> PString
  /\ compareObjects s a b = Some true.
Proof.
  intros s a b hk.
  assert (Ca : cache_ok s a) by (left; vm_compute; reflexivity).
  assert (Cb : cache_ok s b) by (left; vm_compute; reflexivity).
  assert (Da : HashKey_of s a = Some hk) by (vm_compute; reflexivity).
  assert (Db : HashKey_of s b = Some hk) by (vm_compute; reflexivity).
  assert (NS : dyn a <> PString) by (simpl; discriminate).
  assert (Ra : forall I, as_Integer s a = Some I -> - 2 ^ 63 <= Integer_Value I < 2 ^ 63).
  { intros I H. vm_compute in H. injection H as <-. simpl. lia. }
  assert (Rb : forall I, as_Integer s b = Some I -> - 2 ^ 63 <= Integer_Value I < 2 ^ 63).
  { intros I H. vm_compute in H. injection H as <-. simpl. lia. }
  do 5 (split; [assumption |]).
  exact (HashKey_collisions_only_strings s a b hk Ca Cb Da Db NS Ra Rb).
Defined.

(** No cache of [plain1] is stale. *)
Lemma caches_ok_kept_witness :
  Add 6%positive key_one true_object plain = Some (None, plain1) /\ caches_ok plain1.
Proof.
  assert (A : Add 6%positive key_one true_object plain = Some (None, plain1))
    by (vm_compute; reflexivity).
  split; [assumption |].
  destruct caches_ok_kept as (Hi & _ & HA & HI & HS & HH & _).
  apply (HA _ _ _ _ _ _ A). unfold plain. apply HH, HI, HS, HS, Hi.
Defined.

(** The hash key of the integer [-1]. *)
Lemma HashKey_well_formed_witness :
  let hk := mkHashKey INTEGER_OBJ 18446744073709551615 in
  cache_ok sample minus_one /\ HashKey_of sample minus_one = Some hk
  /\ HashKey_Type hk = Type_ minus_one /\ 0 <= HashKey_Value hk < 2 ^ 64.
Proof.
  intros hk.
  assert (C : cache_ok sample minus_one) by (left; vm_compute; reflexivity).
  assert (D : HashKey_of sample minus_one = Some hk) by (vm_compute; reflexivity).
  do 2 (split; [assumption |]).
  exact (HashKey_well_formed sample minus_one hk C D).
Defined.

(** Two Strings of equal content compare equal; a String and an Integer
    do not. *)
Lemma compareObjects_decides_witness :
  valid plain key_one /\ valid plain key_two
  /\ exists r, compareObjects plain key_one key_two = Some r
       /\ (r = true <->
           is_Some (Hashable key_one) /\ dyn key_one = dyn key_two
           /\ Integer_Value <$> as_Integer plain key_one
              = Integer_Value <$> as_Integer plain key_two
           /\ Boolean_Value <$> as_Boolean plain key_one
              = Boolean_Value <$> as_Boolean plain key_two
           /\ String_Value <$> as_String plain key_one
              = String_Value <$> as_String plain key_two).
Proof.
  assert (Va : valid plain key_one) by (vm_compute; eauto).
  assert (Vb : valid plain key_two) by (vm_compute; eauto).
  do 2 (split; [assumption |]).
  exact (compareObjects_decides plain key_one key_two Va Vb).
Defined.

(** A zero [Hash] put in place of the hash of [plain]. *)
Lemma Add_nil_Pairs_witness :
  let s := set_hash 6%positive (mkHash None) plain in
  hashes s !! 6%positive = Some (mkHash None)
  /\ is_Some (Hashable key_one)
  /\ Add 6%positive key_one true_object s = None.
Proof.
  intros s.
  assert (EH : hashes s !! 6%positive = Some (mkHash None)) by (vm_compute; reflexivity).
  assert (Hk : is_Some (Hashable key_one)) by (simpl; eauto).
  do 2 (split; [assumption |]).
  exact (Add_nil_Pairs 6%positive key_one true_object s EH Hk).
Defined.

(** Binding [y] in the inner sample environment. *)
Lemma Set_Get_witness :
  let s' := from_option snd sample (Set_ 8%positive "y" false_object sample) in
  Set_ 8%positive "y" false_object sample = Some (false_object, s')
  /\ Get 2 s' 8%positive "y" = Some (Some false_object)
  /\ Get 2 s' 8%positive "x" = Get 2 sample 8%positive "x".
Proof.
  intros s'.
  assert (A : Set_ 8%positive "y" false_object sample = Some (false_object, s'))
    by (vm_compute; reflexivity).
  split; [assumption |].
  destruct (Set_Get 8%positive "y" false_object sample false_object s' A)
    as (_ & Hg & Ho).
  split; [exact (Hg 1%nat) | apply Ho; discriminate].
Defined.

(** Binding [y] in the inner sample environment does not change what the
    outer one answers for [y]. *)
Lemma Set_does_not_leak_witness :
  let s' := from_option snd sample (Set_ 8%positive "y" false_object sample) in
  envs_ok sample
  /\ Set_ 8%positive "y" false_object sample = Some (false_object, s')
  /\ (7 < 8)%positive
  /\ Get 1 s' 7%positive "y" = Get 1 sample 7%positive "y".
Proof.
  intros s'.
  assert (A : Set_ 8%positive "y" false_object sample = Some (false_object, s'))
    by (vm_compute; reflexivity).
  assert (L : (7 < 8)%positive) by lia.
  split; [exact envs_ok_sample |]. do 2 (split; [assumption |]).
  exact (Set_does_not_leak 8%positive "y" false_object sample false_object s'
           7%positive envs_ok_sample A L "y" 1%nat).
Defined.

(** An environment enclosed in the inner sample environment answers for
    [y] what that one answers. *)
Lemma NewEnvironment_Get_witness :
  let new := NewClosedEnvironment (Some 8%positive) sample in
  envs_ok sample /\ is_Some (environments sample !! 8%positive)
  /\ Get 3 new.2 new.1 "y" = Get 2 sample 8%positive "y".
Proof.
  intros new.
  assert (Hs : is_Some (environments sample !! 8%positive)) by (vm_compute; eauto).
  split; [exact envs_ok_sample |]. split; [assumption |].
  destruct NewEnvironment_Get as (_ & H & _).
  exact (H sample 8%positive "y" 2%nat envs_ok_sample Hs).
Defined.

(** A root environment and one enclosed in it. *)
Lemma envs_ok_kept_witness :
  let s := (NewEnvironment init).2 in
  is_Some (environments s !! 3%positive)
  /\ envs_ok (NewClosedEnvironment (Some 3%positive) s).2.
Proof.
  intros s.
  assert (Hs : is_Some (environments s !! 3%positive)) by (vm_compute; eauto).
  split; [assumption |].
  destruct envs_ok_kept as (Hi & HN & HC & _).
  apply HC; [exact (HN init Hi) |].
  intros o [= <-]. exact Hs.
Defined.

(** [Get] from the inner sample environment returns on eight units of
    fuel. *)
Lemma Get_returns_witness :
  envs_ok sample /\ is_Some (environments sample !! 8%positive)
  /\ (Pos.to_nat 8 <= 8)%nat
  /\ is_Some (Get 8 sample 8%positive "z").
Proof.
  assert (Hs : is_Some (environments sample !! 8%positive)) by (vm_compute; eauto).
  assert (L : (Pos.to_nat 8 <= 8)%nat) by (simpl; lia).
  split; [exact envs_ok_sample |]. do 2 (split; [assumption |]).
  exact (Get_returns sample 8%positive "z" 8%nat envs_ok_sample Hs L).
Defined.

(** The sample session: the scan of its second line. *)
Lemma Start_prompts_before_scans_witness :
  let tr := repl.trace nat
              (repl.session nat sample_parse sample_eval sample_inspect sample_lines init).1 in
  tr = take 9 tr ++ repl.Scanned nat (Some "let = 5;") :: drop 10 tr
  /\ (exists pre', take 9 tr = pre' ++ [repl.Wrote nat repl.PROMPT])
  /\ exists program errors post',
       drop 10 tr = repl.Parsed nat "let = 5;" program errors :: post'.
Proof.
  intros tr.
  assert (E : tr = take 9 tr ++ repl.Scanned nat (Some "let = 5;") :: drop 10 tr)
    by (vm_compute; reflexivity).
  split; [assumption |].
  exact (Start_prompts_before_scans sample_parse sample_eval sample_inspect
           sample_lines init _ _ _ E).
Defined.



(** The sample session, cut after its first line. *)
Lemma session_prefix_witness :
  let run := repl.session nat sample_parse sample_eval sample_inspect in
  let r1 := run ["let x = 5;"] init in
  r1.2 = true
  /\ exists tr1,
       repl.trace nat r1.1 = tr1 ++ [repl.Wrote nat repl.PROMPT; repl.Scanned nat None]
       /\ repl.trace nat (run (["let x = 5;"] ++ ["let = 5;"; "x"]) init).1
          = tr1 ++ (repl.loop_events nat sample_parse sample_eval sample_inspect
                      (NewEnvironment init).1 ["let = 5;"; "x"] (repl.heap nat r1.1)).1.1.
Proof.
  intros run r1.
  assert (R : r1.2 = true) by (vm_compute; reflexivity).
  split; [assumption |].
  destruct (session_prefix sample_parse sample_eval sample_inspect
              ["let x = 5;"] ["let = 5;"; "x"] init) as (Ht & _).
  exact (Ht R).
Defined.
